(** * useragents-me-json: the table-to-record extraction engine

    A shallow embedding of the extraction core of the repository
    (the string converters, the key/value mapper, the table converter and
    the document extractor) together with the properties its specification
    states about them.

    Conventions of the embedding.
    - A JavaScript string is the sequence of its UTF-16 code units.  The
      embedding covers the strings whose code units are all below 256
      (the Latin-1 range); such a string is a [string] of Rocq, one [ascii]
      per code unit.
    - A JavaScript object used as a record is a finite map [gmap string V];
      [{...acc, [k]: v}] is [<[k:=v]> acc].
    - An array is a [list].
    - A JavaScript expression either returns a value or throws; this is the
      type [Completion].  The converters and the mapper are injected through
      the options, so the pipeline threads their completions. *)

From Stdlib Require Import Ascii String NArith DecimalString DecimalNat.
From stdpp Require Import base option list gmap strings.

Local Open Scope N_scope.

(** ** Characters *)

Module JsChar.

Definition code (c : ascii) : N := N_of_ascii c.

(** WhiteSpace and LineTerminator of ECMAScript, below 256: TAB, LF, VT,
    FF, CR, SPACE and NO-BREAK SPACE.  [String.prototype.trim] and the
    regular-expression class [\s] use the same set. *)
Definition isWhiteSpace (c : ascii) : bool :=
  match code c with
  | 9 | 10 | 11 | 12 | 13 | 32 | 160 => true
  | _ => false
  end.

(** The regular-expression class [[a-z]]. *)
Definition isLowerAZ (c : ascii) : bool :=
  (97 <=? code c) && (code c <=? 122).

(** The code units below 256 that [toLowerCase] changes: A-Z, and the
    Latin-1 capitals U+00C0..U+00DE except the multiplication sign
    U+00D7. *)
Definition hasLowerCase (c : ascii) : bool :=
  ((65 <=? code c) && (code c <=? 90))
  || ((192 <=? code c) && (code c <=? 222) && negb (code c =? 215)).

Definition toLowerCase (c : ascii) : ascii :=
  if hasLowerCase c then ascii_of_N (code c + 32) else c.

(** [toUpperCase] is only ever applied to a character matched by [[a-z]];
    there it subtracts 32. *)
Definition toUpperCase (c : ascii) : ascii :=
  if isLowerAZ c then ascii_of_N (code c - 32) else c.

Definition isDigit (c : ascii) : bool :=
  (48 <=? code c) && (code c <=? 57).

(** A lower-case letter of [[a-z]] or a digit. *)
Definition isPlain (c : ascii) : bool := isLowerAZ c || isDigit c.

End JsChar.

(** ** Strings: the methods of [String.prototype] the converters call *)

Module JsString.

Fixpoint map (f : ascii -> ascii) (s : string) : string :=
  match s with
  | EmptyString => EmptyString
  | String c s' => String (f c) (map f s')
  end.

Fixpoint forallb (p : ascii -> bool) (s : string) : bool :=
  match s with
  | EmptyString => true
  | String c s' => p c && forallb p s'
  end.

(** [s.toLowerCase()] *)
Definition toLowerCase (s : string) : string := map JsChar.toLowerCase s.

Fixpoint trimStart (s : string) : string :=
  match s with
  | EmptyString => EmptyString
  | String c s' => if JsChar.isWhiteSpace c then trimStart s' else s
  end.

Fixpoint trimEnd (s : string) : string :=
  match s with
  | EmptyString => EmptyString
  | String c s' =>
      match trimEnd s' with
      | EmptyString =>
          if JsChar.isWhiteSpace c then EmptyString else String c EmptyString
      | r => String c r
      end
  end.

(** [s.trim()] *)
Definition trim (s : string) : string := trimEnd (trimStart s).

(** [s.replace(/\s+/g, replacement)]: every maximal run of white space is
    replaced by one copy of [replacement].  [inRun] tells that the
    previous character belonged to the run being replaced.  The
    replacement is taken literally; the replacements of this program
    (["-"] and ["and"]) contain no dollar pattern. *)
Fixpoint replaceWhiteSpaceRuns_from (inRun : bool) (replacement s : string)
  : string :=
  match s with
  | EmptyString => EmptyString
  | String c s' =>
      if JsChar.isWhiteSpace c then
        if inRun then replaceWhiteSpaceRuns_from true replacement s'
        else replacement +:+ replaceWhiteSpaceRuns_from true replacement s'
      else String c (replaceWhiteSpaceRuns_from false replacement s')
  end.

Definition replaceWhiteSpaceRuns (replacement s : string) : string :=
  replaceWhiteSpaceRuns_from false replacement s.

(** [s.replace(/\+/g, replacement)] *)
Fixpoint replacePlus (replacement s : string) : string :=
  match s with
  | EmptyString => EmptyString
  | String c s' =>
      if Ascii.eqb c "+" then replacement +:+ replacePlus replacement s'
      else String c (replacePlus replacement s')
  end.

(** [s.replace(/-([a-z])/g, (_, char) => char.toUpperCase())]: scanning
    from the left, a hyphen immediately followed by a character of
    [[a-z]] is a match, replaced by that character in upper case; the
    scan resumes after the match.  Any other character is copied. *)
Fixpoint replaceHyphenLetter (s : string) : string :=
  match s with
  | EmptyString => EmptyString
  | String c s' =>
      if Ascii.eqb c "-" then
        match s' with
        | String d s'' =>
            if JsChar.isLowerAZ d
            then String (JsChar.toUpperCase d) (replaceHyphenLetter s'')
            else String c (replaceHyphenLetter s')
        | EmptyString => String c EmptyString
        end
      else String c (replaceHyphenLetter s')
  end.

Definition startsWithWhiteSpace (s : string) : bool :=
  match s with
  | EmptyString => false
  | String c _ => JsChar.isWhiteSpace c
  end.

(** [`${index}`] for an array index: its decimal digits. *)
Definition ofIndex (index : nat) : string :=
  NilEmpty.string_of_uint (Nat.to_uint index).

End JsString.

Local Close Scope N_scope.

(** ** Completions: a JavaScript expression returns a value or throws *)

Inductive Exception : Type :=
| TypeError
| Thrown (value : string).

Inductive Completion (A : Type) : Type :=
| Normal (value : A)
| Throw (exception : Exception).

Arguments Normal {A} value.
Arguments Throw {A} exception.

#[global] Instance Completion_ret : MRet Completion := @Normal.

#[global] Instance Completion_bind : MBind Completion :=
  fun A B k m =>
    match m with
    | Normal a => k a
    | Throw e => Throw e
    end.

(** [Array.from(items, mapFn)]: [mapFn] receives each item and its index;
    the first exception aborts the construction. *)
Fixpoint Array_from_at {A B} (mapFn : A -> nat -> Completion B)
    (items : list A) (index : nat) : Completion (list B) :=
  match items with
  | [] => Normal []
  | item :: rest =>
      value ← mapFn item index;
      values ← Array_from_at mapFn rest (S index);
      Normal (value :: values)
  end.

Definition Array_from {A B} (mapFn : A -> nat -> Completion B)
    (items : list A) : Completion (list B) :=
  Array_from_at mapFn items 0.

(** [items.reduce(callback, initialValue)]: [callback] receives the
    accumulator, the item and its index. *)
Fixpoint Array_reduce_at {A B} (callback : B -> A -> nat -> Completion B)
    (items : list A) (index : nat) (acc : B) : Completion B :=
  match items with
  | [] => Normal acc
  | item :: rest =>
      acc' ← callback acc item index;
      Array_reduce_at callback rest (S index) acc'
  end.

Definition Array_reduce {A B} (callback : B -> A -> nat -> Completion B)
    (items : list A) (initialValue : B) : Completion B :=
  Array_reduce_at callback items 0 initialValue.

(** ** The DOM provider

    The extraction core consumes a DOM through scoped selector queries and
    two element properties only.  [querySelectorAll node selector] lists the
    matches in document order.  [idAttribute] is the [id] content attribute,
    [None] when the element has none.  [document] is [globalThis.document],
    [None] where no ambient document exists. *)

Class Dom : Type := {
  Node : Type;
  textContent : Node -> string;
  idAttribute : Node -> option string;
  querySelectorAll : Node -> string -> list Node;
  document : option Node;
}.

Section Core.
Context `{Dom}.

(** [node.querySelector(selector)]: the first match, or null. *)
Definition querySelector (node : Node) (selector : string) : option Node :=
  head (querySelectorAll node selector).

(** [element.id] reflects the [id] content attribute: the attribute's
    value, or the empty string when the attribute is missing. *)
Definition Element_id (element : Node) : string :=
  default "" (idAttribute element).

(** [receiver.property]: reading a property of null throws a TypeError. *)
Definition getProperty {A} (receiver : option Node) (property : Node -> A)
  : Completion A :=
  match receiver with
  | Some node => Normal (property node)
  | None => Throw TypeError
  end.

(** [receiver?.rest]: when the receiver is null the whole chain is
    undefined and [rest] is not evaluated. *)
Definition optionalChain {A} (receiver : option Node)
    (rest : option Node -> Completion A) : Completion (option A) :=
  match receiver with
  | Some _ => value ← rest receiver; Normal (Some value)
  | None => Normal None
  end.

(** [value ?? fallback] *)
Definition nullishCoalesce {A} (value : option A) (fallback : A) : A :=
  default fallback value.

(** [function(HTMLElement | null, number): string] *)
Definition ElementToStringConverter : Type :=
  option Node -> nat -> Completion string.

(** [function(string[], HTMLElement[], ElementToStringConverter): record] *)
Definition KeysAndElementsMapper : Type :=
  list string -> list Node -> ElementToStringConverter ->
  Completion (gmap string string).

(** *** String converters *)

(** [str.trim().toLowerCase()
       .replace(/-([a-z])/g, (_, char) => char.toUpperCase())] *)
Definition kebabCaseToCamelCase (str : string) : string :=
  JsString.replaceHyphenLetter (JsString.toLowerCase (JsString.trim str)).

(** [(element) => element?.textContent.trim() ?? ""] *)
Definition textContentConverter : ElementToStringConverter :=
  fun element _ =>
    text ← optionalChain element (fun element =>
              content ← getProperty element textContent;
              Normal (JsString.trim content));
    Normal (nullishCoalesce text "").

(** [(element) => kebabCaseToCamelCase(
       textContentConverter(element)
         .replace(/\s+/g, "-").replace(/\+/g, "and"))].
    The text content converter ignores its second argument. *)
Definition textContentToCamelCaseConverter : ElementToStringConverter :=
  fun element index =>
    text ← textContentConverter element index;
    Normal (kebabCaseToCamelCase
              (JsString.replacePlus "and"
                 (JsString.replaceWhiteSpaceRuns "-" text))).

(** [(element, index) =>
       kebabCaseToCamelCase(element?.id ?? `table${index}`)] *)
Definition idToCamelCaseConverter : ElementToStringConverter :=
  fun element index =>
    id ← optionalChain element
           (fun element => getProperty element Element_id);
    Normal (kebabCaseToCamelCase
              (nullishCoalesce id ("table" +:+ JsString.ofIndex index))).

(** *** Key/value mapper *)

(** A computed property name [[key]]: a string is used as it is, and
    [undefined] (an out-of-range [keys[index]]) becomes the name
    ["undefined"]. *)
Definition toPropertyKey (key : option string) : string :=
  default "undefined" key.

(** [elements.reduce((acc, element, index) =>
       ({...acc, [keys[index]]: valueConverter(element, index)}), {})] *)
Definition keysAndElementsMapper : KeysAndElementsMapper :=
  fun keys elements valueConverter =>
    Array_reduce
      (fun acc element index =>
         value ← valueConverter (Some element) index;
         Normal (<[toPropertyKey (keys !! index) := value]> acc))
      elements ∅.

End Core.

(** ** Conversion configuration *)

(** The normalized [options] object: every option has a value.  [root] is
    [None] when no root was given and there is no ambient document. *)
Module Options.
Record t `{Dom} : Type := make {
  root : option Node;
  scopeSelector : string;
  idElementSelector : string;
  tableSelector : string;
  headerSelector : string;
  rowSelector : string;
  cellSelector : string;
  headerKeyConverter : ElementToStringConverter;
  cellValueConverter : ElementToStringConverter;
  tableKeyConverter : ElementToStringConverter;
  keysAndElementsMapper : KeysAndElementsMapper;
}.
End Options.

(** The caller's [getTableAsRecordOptions] object: any subset of the
    options; [None] is a property the caller left out.  The property
    [root] can also be present without holding a node: [Some None] is a
    [root] given as undefined or null. *)
Module GivenOptions.
Record t `{Dom} : Type := make {
  root : option (option Node);
  scopeSelector : option string;
  idElementSelector : option string;
  tableSelector : option string;
  headerSelector : option string;
  rowSelector : option string;
  cellSelector : option string;
  headerKeyConverter : option ElementToStringConverter;
  cellValueConverter : option ElementToStringConverter;
  tableKeyConverter : option ElementToStringConverter;
  keysAndElementsMapper : option KeysAndElementsMapper;
}.

(** [{}], the default argument of [getTablesAsRecord]. *)
Definition empty `{Dom} : t :=
  make _ None None None None None None None None None None None.
End GivenOptions.

Section Extraction.
Context `{Dom}.

Definition defaultOptions : Options.t := {|
  Options.root := document;
  Options.scopeSelector := "div.container";
  Options.idElementSelector := ":scope > h2";
  Options.tableSelector := ":scope > div.table-responsive > table";
  Options.headerSelector := "thead th";
  Options.rowSelector := "tbody tr";
  Options.cellSelector := "td";
  Options.headerKeyConverter := textContentToCamelCaseConverter;
  Options.cellValueConverter := textContentConverter;
  Options.tableKeyConverter := idToCamelCaseConverter;
  Options.keysAndElementsMapper := keysAndElementsMapper;
|}.

(** [{...defaultOptions, ...getTableAsRecordOptions}]: a given property
    overrides the default, also a [root] given as undefined or null. *)
Definition normalizeOptions (getTableAsRecordOptions : GivenOptions.t)
  : Options.t := {|
  Options.root :=
    match GivenOptions.root getTableAsRecordOptions with
    | Some root => root
    | None => Options.root defaultOptions
    end;
  Options.scopeSelector :=
    default (Options.scopeSelector defaultOptions)
      (GivenOptions.scopeSelector getTableAsRecordOptions);
  Options.idElementSelector :=
    default (Options.idElementSelector defaultOptions)
      (GivenOptions.idElementSelector getTableAsRecordOptions);
  Options.tableSelector :=
    default (Options.tableSelector defaultOptions)
      (GivenOptions.tableSelector getTableAsRecordOptions);
  Options.headerSelector :=
    default (Options.headerSelector defaultOptions)
      (GivenOptions.headerSelector getTableAsRecordOptions);
  Options.rowSelector :=
    default (Options.rowSelector defaultOptions)
      (GivenOptions.rowSelector getTableAsRecordOptions);
  Options.cellSelector :=
    default (Options.cellSelector defaultOptions)
      (GivenOptions.cellSelector getTableAsRecordOptions);
  Options.headerKeyConverter :=
    default (Options.headerKeyConverter defaultOptions)
      (GivenOptions.headerKeyConverter getTableAsRecordOptions);
  Options.cellValueConverter :=
    default (Options.cellValueConverter defaultOptions)
      (GivenOptions.cellValueConverter getTableAsRecordOptions);
  Options.tableKeyConverter :=
    default (Options.tableKeyConverter defaultOptions)
      (GivenOptions.tableKeyConverter getTableAsRecordOptions);
  Options.keysAndElementsMapper :=
    default (Options.keysAndElementsMapper defaultOptions)
      (GivenOptions.keysAndElementsMapper getTableAsRecordOptions);
|}.

(** *** Table converter *)

(** [Array.from(table.querySelectorAll(options.headerSelector),
       (th, index) => options.headerKeyConverter(th, index))]: the header
    keys, each header cell converted with its index among the headers. *)
Definition tableHeaders (table : Node) (options : Options.t)
  : Completion (list string) :=
  Array_from
    (fun th index => Options.headerKeyConverter options (Some th) index)
    (querySelectorAll table (Options.headerSelector options)).

(** [Array.from(table.querySelectorAll(options.rowSelector), (row) =>
       Array.from(row.querySelectorAll(options.cellSelector)))]: the cell
    sequences, one per row. *)
Definition tableRows (table : Node) (options : Options.t)
  : list (list Node) :=
  map (fun row => querySelectorAll row (Options.cellSelector options))
    (querySelectorAll table (Options.rowSelector options)).

(** The rows are reduced from the empty array: a cell sequence with
    [cells.length === headers.length] appends the record the mapper makes
    of it, any other leaves the accumulator as it is. *)
Definition convertTableToRecordArray (table : Node) (options : Options.t)
  : Completion (list (gmap string string)) :=
  headers ← tableHeaders table options;
  Array_reduce
    (fun acc cells _ =>
       if decide (length cells = length headers)
       then
         record ← Options.keysAndElementsMapper options headers cells
                    (Options.cellValueConverter options);
         Normal (acc ++ [record])
       else Normal acc)
    (tableRows table options) [].

(** *** Document extractor *)

(** [options.root.querySelectorAll(options.scopeSelector)] *)
Definition scopeContainers (options : Options.t) (root : Node) : list Node :=
  querySelectorAll root (Options.scopeSelector options).

(** The table key of the container at position [index]: the table-key
    converter applied to the container's id element (or null) and
    [index]. *)
Definition containerKey (options : Options.t) (container : Node)
    (index : nat) : Completion string :=
  Options.tableKeyConverter options
    (querySelector container (Options.idElementSelector options)) index.

(** [container.querySelector(options.tableSelector)] *)
Definition containerTable (options : Options.t) (container : Node)
  : option Node :=
  querySelector container (Options.tableSelector options).

(** The array [getTablesAsRecord] reduces: for each scope container, in
    document order, the pair of its table key and its table (or null). *)
Definition tableEntries (options : Options.t)
  : Completion (list (string * option Node)) :=
  containers ← getProperty (Options.root options) (scopeContainers options);
  Array_from
    (fun container index =>
       id ← containerKey options container index;
       Normal (id, containerTable options container))
    containers.

(** The reducer of [getTablesAsRecord]:
    [(acc, [id, table]) =>
       table ? {...acc, [id]: convertTableToRecordArray(table, options)}
             : acc]. *)
Definition addTable (options : Options.t)
    (acc : gmap string (list (gmap string string)))
    (entry : string * option Node) (index : nat)
  : Completion (gmap string (list (gmap string string))) :=
  match entry.2 with
  | Some table =>
      records ← convertTableToRecordArray table options;
      Normal (<[entry.1 := records]> acc)
  | None => Normal acc
  end.

(** The reduction, from the empty object. *)
Definition collectTables (options : Options.t)
    (entries : list (string * option Node))
  : Completion (gmap string (list (gmap string string))) :=
  Array_reduce (addTable options) entries ∅.

Definition getTablesAsRecord (getTableAsRecordOptions : GivenOptions.t)
  : Completion (gmap string (list (gmap string string))) :=
  let options := normalizeOptions getTableAsRecordOptions in
  entries ← tableEntries options;
  collectTables options entries.

End Extraction.

(** ** The converter contract

    The options inject the converters and the mapper.  The contract of a
    converter is to return a string for every element-or-null and index;
    the contract of a mapper is to return a record. *)

Section Contract.
Context `{Dom}.

Definition alwaysReturns (converter : ElementToStringConverter) : Prop :=
  ∀ element index, ∃ value, converter element index = Normal value.

Record honoursContract (options : Options.t) : Prop := {
  headerKey_returns : alwaysReturns (Options.headerKeyConverter options);
  cellValue_returns : alwaysReturns (Options.cellValueConverter options);
  tableKey_returns : alwaysReturns (Options.tableKeyConverter options);
  mapper_returns :
    ∀ keys elements, ∃ record,
      Options.keysAndElementsMapper options keys elements
        (Options.cellValueConverter options) = Normal record;
}.

End Contract.

(** ** The wording of the specification, for comparison

    The specification describes the kebab-to-camel step as removing each
    hyphen and upper-casing the character that followed it, whatever that
    character is. *)

Module Spec.

Fixpoint removeEachHyphen (s : string) : string :=
  match s with
  | EmptyString => EmptyString
  | String c s' =>
      if Ascii.eqb c "-" then
        match s' with
        | String d s'' => String (JsChar.toUpperCase d) (removeEachHyphen s'')
        | EmptyString => EmptyString
        end
      else String c (removeEachHyphen s')
  end.

Definition kebabCaseToCamelCase (str : string) : string :=
  removeEachHyphen (JsString.toLowerCase (JsString.trim str)).

(** Every hyphen of [s] is immediately followed by a character of
    [[a-z]]. *)
Fixpoint hyphensPrecedeLetters (s : string) : bool :=
  match s with
  | EmptyString => true
  | String c s' =>
      if Ascii.eqb c "-" then
        match s' with
        | String d s'' => JsChar.isLowerAZ d && hyphensPrecedeLetters s''
        | EmptyString => false
        end
      else hyphensPrecedeLetters s'
  end.

End Spec.

(** ** A concrete DOM

    A document tree of elements and text nodes.  Its selector engine
    understands type selectors: a selector is a tag name and matches the
    descendant elements with that tag, in document order. *)

Module Fixture.

#[warnings="-register-all"]
Inductive Html : Type :=
| Text (data : string)
| Element (tagName : string) (id : option string) (childNodes : list Html).

Fixpoint Html_textContent (node : Html) : string :=
  match node with
  | Text data => data
  | Element _ _ childNodes =>
      (fix concat (nodes : list Html) : string :=
         match nodes with
         | [] => EmptyString
         | child :: nodes' => Html_textContent child +:+ concat nodes'
         end) childNodes
  end.

Fixpoint descendants (node : Html) : list Html :=
  match node with
  | Text _ => []
  | Element _ _ childNodes =>
      (fix walk (nodes : list Html) : list Html :=
         match nodes with
         | [] => []
         | child :: nodes' => child :: descendants child ++ walk nodes'
         end) childNodes
  end.

Definition hasTagName (selector : string) (node : Html) : bool :=
  match node with
  | Element tagName _ _ => String.eqb tagName selector
  | Text _ => false
  end.

Definition Html_idAttribute (node : Html) : option string :=
  match node with
  | Element _ id _ => id
  | Text _ => None
  end.

#[global] Instance dom : Dom := {|
  Node := Html;
  textContent := Html_textContent;
  idAttribute := Html_idAttribute;
  querySelectorAll node selector :=
    List.filter (hasTagName selector) (descendants node);
  document := None;
|}.

Definition th (label : string) : Html := Element "th" None [Text label].
Definition td (value : string) : Html := Element "td" None [Text value].
Definition tr (cells : list Html) : Html := Element "tr" None cells.

(** A table with one header cell and one row of one cell. *)
Definition oldTable : Html :=
  Element "table" None
    [ Element "thead" None [th "Name"];
      Element "tbody" None [tr [td "Netscape"]] ].

(** A table with two header cells that both convert to the key ["name"],
    a row of two cells and a row of one cell. *)
Definition agentsTable : Html :=
  Element "table" None
    [ Element "thead" None [th "Name"; th " name "];
      Element "tbody" None
        [ tr [td "Firefox"; td " Chrome "];
          tr [td "Safari"] ] ].

(** A table with one header cell and no row of one cell. *)
Definition emptyTable : Html :=
  Element "table" None
    [ Element "thead" None [th "OS + Browser"];
      Element "tbody" None [tr [td "a"; td "b"]; tr []] ].

(** Five scope containers: the first and the fourth derive the same key
    and hold a table each, the second and the fifth hold no table, the
    third has no id element. *)
Definition page : Html :=
  Element "body" None
    [ Element "section" None
        [Element "h2" (Some "latest-agents") [Text "Latest"]; oldTable];
      Element "section" None
        [Element "h2" (Some "no-table") [Text "Nothing here"]];
      Element "section" None [emptyTable];
      Element "section" None
        [Element "h2" (Some "Latest-Agents") [Text "Again"]; agentsTable];
      Element "section" None
        [Element "h2" (Some "latest-agents") [Text "No table"]] ].

(** Options for the concrete DOM: type selectors, default converters and
    mapper. *)
Definition given : GivenOptions.t := {|
  GivenOptions.root := Some (Some page);
  GivenOptions.scopeSelector := Some "section";
  GivenOptions.idElementSelector := Some "h2";
  GivenOptions.tableSelector := Some "table";
  GivenOptions.headerSelector := Some "th";
  GivenOptions.rowSelector := Some "tr";
  GivenOptions.cellSelector := Some "td";
  GivenOptions.headerKeyConverter := None;
  GivenOptions.cellValueConverter := None;
  GivenOptions.tableKeyConverter := None;
  GivenOptions.keysAndElementsMapper := None;
|}.

End Fixture.


(** ** More of the string methods *)

Module JsText.

Fixpoint endsWithWhiteSpace (s : string) : bool :=
  match s with
  | EmptyString => false
  | String c EmptyString => JsChar.isWhiteSpace c
  | String _ s' => endsWithWhiteSpace s'
  end.

(** [s.split(separator)] for a separator of one character: the pieces
    between the occurrences of the separator, at least one piece. *)
Fixpoint split (separator : ascii) (s : string) : list string :=
  match s with
  | EmptyString => [EmptyString]
  | String c s' =>
      if Ascii.eqb c separator then EmptyString :: split separator s'
      else
        match split separator s' with
        | piece :: pieces => String c piece :: pieces
        | [] => [String c EmptyString]
        end
  end.

(** [pieces.join(separator)] *)
Fixpoint join (separator : ascii) (pieces : list string) : string :=
  match pieces with
  | [] => EmptyString
  | [piece] => piece
  | piece :: pieces' => piece +:+ String separator (join separator pieces')
  end.

End JsText.

(** ** The command line (the entry module)

    [process.argv0] is a string and [process.env] maps names to strings. *)

Module Cli.

(** [process.argv0.split(2)]: the separator [2] is converted to the string
    ["2"]. *)
Definition ARGS (argv0 : string) : list string := JsText.split "2" argv0.

(** [items.includes(value)] for strings. *)
Definition includes (items : list string) (value : string) : bool :=
  bool_decide (value ∈ items).

(** The value bound to [PRETTIFY_JSON]: the string of the environment, or
    the boolean default computed from [ARGS] when the variable is unset. *)
Inductive Prettify : Type :=
| FromEnvironment (value : string)
| FromArguments (flag : bool).

Record Settings : Type := {
  USERAGENTS_URL : string;
  OUTPUT_FILE : string;
  PRETTIFY_JSON : Prettify;
}.

(** The destructuring of [process.env] with its defaults. *)
Definition settings (argv0 : string) (env : gmap string string) : Settings := {|
  USERAGENTS_URL := default "https://www.useragents.me/" (env !! "USERAGENTS_URL");
  OUTPUT_FILE := default "" (env !! "OUTPUT_FILE");
  PRETTIFY_JSON :=
    match env !! "PRETTIFY_JSON" with
    | Some value => FromEnvironment value
    | None =>
        FromArguments
          (includes (ARGS argv0) "-p" || includes (ARGS argv0) "--pretty")
    end;
|}.

(** [["true", true].includes(PRETTIFY_JSON) ? 4 : 0] *)
Definition jsonIndent (s : Settings) : nat :=
  if match PRETTIFY_JSON s with
     | FromEnvironment value => bool_decide (value = "true")
     | FromArguments flag => flag
     end
  then 4 else 0.

(** [ARGS.includes("--help") || ARGS.includes("-h")] *)
Definition helpRequested (argv0 : string) : bool :=
  includes (ARGS argv0) "--help" || includes (ARGS argv0) "-h".

End Cli.

(** ** Error objects and [explainErrorCode]

    The values that occur as the destructured constants of [os.constants]
    and as the [code] of an error: undefined, a number or a string. *)

Inductive JsValue : Type :=
| Undefined
| Number (n : nat)
| Text (s : string).

(** The property name a value is converted to when used as a key. *)
Definition propertyKey (v : JsValue) : string :=
  match v with
  | Undefined => "undefined"
  | Number n => JsString.ofIndex n
  | Text s => s
  end.

Record NodeError : Type := {
  code : JsValue;
  message : string;
}.

(** [const { EACCES, ENOENT, EAGAIN, EBUSY, EEXIST, EINVAL, EIO } =
      os.constants]: whatever the host has under these names. *)
Record ErrnoConstants : Type := {
  EACCES : JsValue;
  ENOENT : JsValue;
  EAGAIN : JsValue;
  EBUSY : JsValue;
  EEXIST : JsValue;
  EINVAL : JsValue;
  EIO : JsValue;
}.

(** The property definitions of the object literal, in source order. *)
Definition errnoMessages (constants : ErrnoConstants)
  : list (JsValue * string) :=
  [ (ENOENT constants, "No such file or directory");
    (EACCES constants, "Permission denied");
    (EAGAIN constants, "Resource temporarily unavailable");
    (EBUSY constants, "Resource busy or locked");
    (EEXIST constants, "File or directory already exists");
    (EINVAL constants, "Invalid argument");
    (EIO constants, "I/O error") ].

(** An object literal with computed keys: the definitions are made in
    order, a later one replaces an earlier one with the same name. *)
Definition objectLiteral (definitions : list (JsValue * string))
  : gmap string string :=
  foldl (fun object definition =>
           <[propertyKey definition.1 := definition.2]> object)
    ∅ definitions.

(** [value || fallback] for a string: the empty string is falsy. *)
Definition logicalOr (value fallback : string) : string :=
  match value with
  | EmptyString => fallback
  | _ => value
  end.

(** What [table[error.code] || fallback] yields: a message, or, when the
    code names none of the table's own properties but a property that the
    object literal inherits from [Object.prototype] (such as
    ["toString"]), that inherited value, which is no string. *)
Inductive Explanation : Type :=
| Message (text : string)
| Inherited (name : string).

(** [inherits name] tells whether the host's [Object.prototype] has a
    property [name]; an inherited property is a function or an object,
    hence truthy.  An own property of the table comes first. *)
Definition explainErrorCode (inherits : string -> bool)
    (constants : ErrnoConstants) (error : NodeError) : Explanation :=
  let key := propertyKey (code error) in
  match objectLiteral (errnoMessages constants) !! key with
  | Some text => Message (logicalOr text "Error accessing file or directory")
  | None =>
      if inherits key then Inherited key
      else Message "Error accessing file or directory"
  end.

(** The property names of [Object.prototype] in ECMAScript with its
    annex B. *)
Definition objectPrototypeNames : list string :=
  [ "constructor"; "hasOwnProperty"; "isPrototypeOf";
    "propertyIsEnumerable"; "toLocaleString"; "toString"; "valueOf";
    "__proto__"; "__defineGetter__"; "__defineSetter__";
    "__lookupGetter__"; "__lookupSetter__" ].

Definition inheritsFromObjectPrototype (name : string) : bool :=
  bool_decide (name ∈ objectPrototypeNames).

(** ** Promises and the file-system helpers *)

(** A settled promise. *)
Inductive Settled (A : Type) : Type :=
| Fulfilled (value : A)
| Rejected (reason : NodeError).

Arguments Fulfilled {A} value.
Arguments Rejected {A} reason.

Inductive AccessMode : Type := F_OK | W_OK.

(** The host: [fs.promises.access], [fs.promises.mkdir],
    [fs.promises.open] as transitions of an unknown world, and
    [path.dirname]. *)
Class FileSystem : Type := {
  World : Type;
  FileHandle : Type;
  fs_access : string -> AccessMode -> World -> Settled unit * World;
  fs_mkdir : string -> bool -> World -> Settled (option string) * World;
  fs_open : string -> string -> World -> Settled FileHandle * World;
  path_dirname : string -> string;
}.

Section FsHelpers.
Context `{FileSystem}.

(** What an asynchronous function did to the host, call by call, with the
    outcome of each call. *)
Inductive FsEvent : Type :=
| Accessed (path : string) (mode : AccessMode) (outcome : Settled unit)
| MadeDirectory (path : string) (recursive : bool)
    (outcome : Settled (option string))
| Opened (path : string) (flags : string) (outcome : Settled FileHandle).

(** An asynchronous computation: from the world to the settled promise,
    the world it leaves and the calls it made. *)
Definition Async (A : Type) : Type :=
  World -> Settled A * World * list FsEvent.

Definition resolve {A} (value : A) : Async A :=
  fun world => (Fulfilled value, world, []).

(** [await m] followed by [k]. *)
Definition await {A B} (m : Async A) (k : A -> Async B) : Async B :=
  fun world =>
    match m world with
    | (Fulfilled value, world', events) =>
        match k value world' with
        | (outcome, world'', events') => (outcome, world'', events ++ events')
        end
    | (Rejected reason, world', events) => (Rejected reason, world', events)
    end.

(** [promise.catch((err) => err)]: a rejection becomes a fulfilment with
    the error as value. *)
Definition catchAsValue {A} (m : Async A) : Async (A + NodeError) :=
  fun world =>
    match m world with
    | (Fulfilled value, world', events) => (Fulfilled (inl value), world', events)
    | (Rejected reason, world', events) => (Fulfilled (inr reason), world', events)
    end.

Definition access (path : string) (mode : AccessMode) : Async unit :=
  fun world =>
    match fs_access path mode world with
    | (outcome, world') => (outcome, world', [Accessed path mode outcome])
    end.

Definition mkdir (path : string) (recursive : bool)
  : Async (option string) :=
  fun world =>
    match fs_mkdir path recursive world with
    | (outcome, world') =>
        (outcome, world', [MadeDirectory path recursive outcome])
    end.

Definition open (path flags : string) : Async FileHandle :=
  fun world =>
    match fs_open path flags world with
    | (outcome, world') => (outcome, world', [Opened path flags outcome])
    end.

(** The options object of both helpers; [None] is a property left out. *)
Record GracefulOptions : Type := {
  recursive : option bool;
  createDirectory : option bool;
  createFile : option bool;
  skipDirectoryCheck : option bool;
}.

(** What [gracefullyAccessDirectory] fulfils with: the directory path or
    the result of [mkdir] (a string or undefined), or an error object. *)
Inductive DirectoryResult : Type :=
| DirectoryUndefined
| DirectoryPath (path : string)
| DirectoryError (error : NodeError).

(** [accessResult instanceof Error && createDirectory] returns the promise
    of [fs.mkdir]; otherwise [accessResult || directory] is the error (an
    object is truthy) or, after a successful access, the directory. *)
Definition gracefullyAccessDirectory (directory : string)
    (options : GracefulOptions) : Async DirectoryResult :=
  let createDirectory := default true (createDirectory options) in
  let recursive := default true (recursive options) in
  await (catchAsValue (access directory F_OK)) (fun accessResult =>
    match accessResult, createDirectory with
    | inr _, true =>
        await (mkdir directory recursive) (fun made =>
          resolve match made with
                  | Some first => DirectoryPath first
                  | None => DirectoryUndefined
                  end)
    | inr error, false => resolve (DirectoryError error)
    | inl _, _ => resolve (DirectoryPath directory)
    end).

(** What [gracefullyOpenFile] fulfils with. *)
Inductive OpenResult : Type :=
| OpenedFile (handle : FileHandle)
| OpenError (error : NodeError).

(** [skipDirectoryCheck ||
      (await gracefullyAccessDirectory(directory, options)
         .catch((err) => err))]: [None] is the value [true]. *)
Definition directoryAccessResult (directory : string)
    (options : GracefulOptions) : Async (option (DirectoryResult + NodeError)) :=
  if default false (skipDirectoryCheck options) then resolve None
  else
    await (catchAsValue (gracefullyAccessDirectory directory options))
      (fun result => resolve (Some result)).

(** [value instanceof Error] for a directory access result. *)
Definition directoryFailure (result : option (DirectoryResult + NodeError))
  : option NodeError :=
  match result with
  | Some (inr error) => Some error
  | Some (inl (DirectoryError error)) => Some error
  | _ => None
  end.

(** A failed directory check returns its error; a failed write-access
    check returns its error when [createFile] is false; otherwise the
    file is opened with the flags ["w+"] and a rejection of [fs.open]
    becomes the value. *)
Definition gracefullyOpenFile (filePath : string) (options : GracefulOptions)
  : Async OpenResult :=
  let createFile := default true (createFile options) in
  let directory := path_dirname filePath in
  await (directoryAccessResult directory options) (fun directoryResult =>
    match directoryFailure directoryResult with
    | Some error => resolve (OpenError error)
    | None =>
        await (catchAsValue (access filePath W_OK)) (fun fileAccessResult =>
          match fileAccessResult, createFile with
          | inr error, false => resolve (OpenError error)
          | _, _ =>
              await (catchAsValue (open filePath "w+")) (fun opened =>
                resolve match opened with
                        | inl handle => OpenedFile handle
                        | inr error => OpenError error
                        end)
          end)
    end).

End FsHelpers.

(** ** Fetching and [getUserAgentsJson] *)

(** What is handed to the [JSDOM] constructor: the page text, or the error
    object that [fetchHtml(url).catch((err) => err)] fulfils with. *)
Inductive HtmlInput : Type :=
| HtmlText (text : string)
| HtmlError (error : NodeError).

Section UserAgents.
Context `{Dom}.

(** The hosts: [fetch], [response.text()] and the [JSDOM] constructor,
    which yields the document of the page or throws. *)
Context {Response : Type}.
Variable fetch : string -> Settled Response.
Variable responseText : Response -> Settled string.
Variable JSDOM : HtmlInput -> Completion Node.

(** [const response = await fetch(url); return response.text();] *)
Definition fetchHtml (url : string) : Settled string :=
  match fetch url with
  | Fulfilled response => responseText response
  | Rejected reason => Rejected reason
  end.

(** The options [{ root: dom.window.document }]. *)
Definition rootOnly (root : Node) : GivenOptions.t := {|
  GivenOptions.root := Some (Some root);
  GivenOptions.scopeSelector := None;
  GivenOptions.idElementSelector := None;
  GivenOptions.tableSelector := None;
  GivenOptions.headerSelector := None;
  GivenOptions.rowSelector := None;
  GivenOptions.cellSelector := None;
  GivenOptions.headerKeyConverter := None;
  GivenOptions.cellValueConverter := None;
  GivenOptions.tableKeyConverter := None;
  GivenOptions.keysAndElementsMapper := None;
|}.

(** An options object with no property but [root], or the empty one. *)
Definition justRoot (root : option (option Node)) : GivenOptions.t := {|
  GivenOptions.root := root;
  GivenOptions.scopeSelector := None;
  GivenOptions.idElementSelector := None;
  GivenOptions.tableSelector := None;
  GivenOptions.headerSelector := None;
  GivenOptions.rowSelector := None;
  GivenOptions.cellSelector := None;
  GivenOptions.headerKeyConverter := None;
  GivenOptions.cellValueConverter := None;
  GivenOptions.tableKeyConverter := None;
  GivenOptions.keysAndElementsMapper := None;
|}.

(** The promise of [getUserAgentsJson]: [Throw] is a rejection. *)
Definition getUserAgentsJson (url : string)
  : Completion (gmap string (list (gmap string string))) :=
  let htmlText :=
    match fetchHtml url with
    | Fulfilled text => HtmlText text
    | Rejected error => HtmlError error
    end in
  document ← JSDOM htmlText;
  getTablesAsRecord (rootOnly document).

End UserAgents.

(** ** A concrete file system

    A disk is the list of its directories and the list of its writable
    files.  A directory is made when its parent exists or recursively; a
    file is opened when its directory exists. *)

Module Disk.

Record t : Type := {
  directories : list string;
  files : list string;
}.

(** The path without its last segment, or ["."]. *)
Definition parent (path : string) : string :=
  match JsText.split "/" path with
  | [] | [_] => "."
  | pieces => JsText.join "/" (removelast pieces)
  end.

Definition ENOENT_error : NodeError :=
  {| code := Text "ENOENT"; message := "no such file or directory" |}.

Definition disk_access (path : string) (mode : AccessMode) (disk : t)
  : Settled unit * t :=
  match mode with
  | F_OK =>
      if bool_decide (path ∈ directories disk ++ files disk)
      then (Fulfilled tt, disk) else (Rejected ENOENT_error, disk)
  | W_OK =>
      if bool_decide (path ∈ files disk)
      then (Fulfilled tt, disk) else (Rejected ENOENT_error, disk)
  end.

Definition disk_mkdir (path : string) (recursive : bool) (disk : t)
  : Settled (option string) * t :=
  if recursive then
    (Fulfilled (Some path),
     {| directories := path :: directories disk; files := files disk |})
  else if bool_decide (parent path ∈ directories disk) then
    (Fulfilled None,
     {| directories := path :: directories disk; files := files disk |})
  else (Rejected ENOENT_error, disk).

Definition disk_open (path flags : string) (disk : t) : Settled string * t :=
  if bool_decide (parent path ∈ directories disk) then
    (Fulfilled path,
     {| directories := directories disk; files := path :: files disk |})
  else (Rejected ENOENT_error, disk).

#[global] Instance fileSystem : FileSystem := {|
  World := t;
  FileHandle := string;
  fs_access := disk_access;
  fs_mkdir := disk_mkdir;
  fs_open := disk_open;
  path_dirname := parent;
|}.

Definition home : t := {| directories := ["/home"]; files := [] |}.

End Disk.

(** ** A second concrete page, with converters that throw *)

Module Sample.

(** A key converter that insists on an id element. *)
Definition strictKeyConverter : ElementToStringConverter (H := Fixture.dom) :=
  fun element index =>
    match element with
    | Some _ => idToCamelCaseConverter element index
    | None => Throw (Thrown "no heading")
    end.

(** A cell converter that accepts the first cell of a row only. *)
Definition firstCellConverter : ElementToStringConverter (H := Fixture.dom) :=
  fun element index =>
    match index with
    | 0 => textContentConverter element index
    | S _ => Throw (Thrown "extra cell")
    end.

(** One header cell; a row of one cell and a row of two cells. *)
Definition raggedTable : Fixture.Html :=
  Fixture.Element "table" None
    [ Fixture.Element "thead" None [Fixture.th "Name"];
      Fixture.Element "tbody" None
        [ Fixture.tr [Fixture.td "Firefox"];
          Fixture.tr [Fixture.td "Chrome"; Fixture.td "Blink"] ] ].

(** Two containers with a heading and a table, then one with neither. *)
Definition page : Fixture.Html :=
  Fixture.Element "body" None
    [ Fixture.Element "section" None
        [Fixture.Element "h2" (Some "desktop") []; raggedTable];
      Fixture.Element "section" None
        [Fixture.Element "h2" (Some "mobile") []; Fixture.oldTable];
      Fixture.Element "section" None [Fixture.Text "soon"] ].

Definition given (tableKeyConverter cellValueConverter
    : option (ElementToStringConverter (H := Fixture.dom)))
  : GivenOptions.t := {|
  GivenOptions.root := Some (Some page);
  GivenOptions.scopeSelector := Some "section";
  GivenOptions.idElementSelector := Some "h2";
  GivenOptions.tableSelector := Some "table";
  GivenOptions.headerSelector := Some "th";
  GivenOptions.rowSelector := Some "tr";
  GivenOptions.cellSelector := Some "td";
  GivenOptions.headerKeyConverter := None;
  GivenOptions.cellValueConverter := cellValueConverter;
  GivenOptions.tableKeyConverter := tableKeyConverter;
  GivenOptions.keysAndElementsMapper := None;
|}.

End Sample.

(** ** Labels: words separated by runs of white space *)

Module Label.

(** A non-empty string without white space. *)
Definition isWord (w : string) : bool :=
  match w with
  | EmptyString => false
  | _ => JsString.forallb (fun c => negb (JsChar.isWhiteSpace c)) w
  end.

(** A non-empty string of white space. *)
Definition isRun (s : string) : bool :=
  match s with
  | EmptyString => false
  | _ => JsString.forallb JsChar.isWhiteSpace s
  end.

(** The first word, then each further word behind its run of white
    space. *)
Fixpoint spaced (first : string) (rest : list (string * string)) : string :=
  match rest with
  | [] => first
  | (run, word) :: rest' => first +:+ run +:+ spaced word rest'
  end.

(** The same words, one hyphen in place of each run. *)
Fixpoint hyphenated (first : string) (rest : list (string * string))
  : string :=
  match rest with
  | [] => first
  | (_, word) :: rest' => first +:+ "-" +:+ hyphenated word rest'
  end.

(** Every separator is a run and every further word is a word. *)
Fixpoint wellFormed (rest : list (string * string)) : bool :=
  match rest with
  | [] => true
  | (run, word) :: rest' => isRun run && isWord word && wellFormed rest'
  end.

End Label.

(** * Properties *)

(** ** Characters and strings *)

Ltac ascii_cases c := destruct c as [[] [] [] [] [] [] [] []].

Lemma append_nil_l (s : string) : "" +:+ s = s.
Proof. reflexivity. Qed.

Lemma append_cons (c : ascii) (a b : string) :
  String c a +:+ b = String c (a +:+ b).
Proof. reflexivity. Qed.

Lemma append_nil_r (s : string) : s +:+ "" = s.
Proof. induction s as [|c s IH]; [done|]. by rewrite append_cons, IH. Qed.

Lemma append_assoc (a b c : string) : (a +:+ b) +:+ c = a +:+ (b +:+ c).
Proof.
  induction a as [|x a IH]; [done|]. by rewrite !append_cons, IH.
Qed.

Lemma isPlain_not_whiteSpace c :
  JsChar.isPlain c = true → JsChar.isWhiteSpace c = false.
Proof. ascii_cases c; vm_compute; congruence. Qed.

Lemma isPlain_toLowerCase c :
  JsChar.isPlain c = true → JsChar.toLowerCase c = c.
Proof. ascii_cases c; vm_compute; congruence. Qed.

Lemma isPlain_not_hyphen c :
  JsChar.isPlain c = true → Ascii.eqb c "-" = false.
Proof. ascii_cases c; vm_compute; congruence. Qed.

Lemma isLowerAZ_not_hyphen c :
  JsChar.isLowerAZ c = true → Ascii.eqb c "-" = false.
Proof. ascii_cases c; vm_compute; congruence. Qed.

Lemma forallb_append p a b :
  JsString.forallb p (a +:+ b) = JsString.forallb p a && JsString.forallb p b.
Proof.
  induction a as [|c a IH]; [done|].
  rewrite append_cons. simpl. by rewrite IH, andb_assoc.
Qed.

Lemma trimStart_plain s :
  JsString.forallb JsChar.isPlain s = true → JsString.trimStart s = s.
Proof.
  destruct s as [|c s]; [done|]. simpl. intros [Hc _]%andb_prop.
  by rewrite (isPlain_not_whiteSpace c Hc).
Qed.

Lemma trimEnd_plain s :
  JsString.forallb JsChar.isPlain s = true → JsString.trimEnd s = s.
Proof.
  induction s as [|c s IH]; [done|]. simpl. intros [Hc Hs]%andb_prop.
  rewrite (IH Hs). destruct s; [|done].
  by rewrite (isPlain_not_whiteSpace c Hc).
Qed.

Lemma toLowerCase_plain s :
  JsString.forallb JsChar.isPlain s = true → JsString.toLowerCase s = s.
Proof.
  induction s as [|c s IH]; [done|]. simpl. intros [Hc Hs]%andb_prop.
  unfold JsString.toLowerCase in *. simpl.
  by rewrite (isPlain_toLowerCase c Hc), (IH Hs).
Qed.

Lemma replaceHyphenLetter_no_hyphen s :
  JsString.forallb (fun c => negb (Ascii.eqb c "-")) s = true →
  JsString.replaceHyphenLetter s = s.
Proof.
  induction s as [|c s IH]; [done|]. simpl. intros [Hc Hs]%andb_prop.
  apply negb_true_iff in Hc. by rewrite Hc, (IH Hs).
Qed.

Lemma forallb_impl (p q : ascii → bool) s :
  (∀ c, p c = true → q c = true) →
  JsString.forallb p s = true → JsString.forallb q s = true.
Proof.
  intros Hpq. induction s as [|c s IH]; [done|]. simpl.
  intros [Hc Hs]%andb_prop. by rewrite (Hpq c Hc), (IH Hs).
Qed.

Lemma string_of_uint_digits u :
  JsString.forallb JsChar.isDigit (NilEmpty.string_of_uint u) = true.
Proof. induction u; simpl; try done. Qed.

Lemma ofIndex_plain index :
  JsString.forallb JsChar.isPlain (JsString.ofIndex index) = true.
Proof.
  apply forallb_impl with (p := JsChar.isDigit).
  - intros c Hc. unfold JsChar.isPlain. by rewrite Hc, orb_true_r.
  - apply string_of_uint_digits.
Qed.

Lemma kebabCaseToCamelCase_plain s :
  JsString.forallb JsChar.isPlain s = true → kebabCaseToCamelCase s = s.
Proof.
  intros Hs. unfold kebabCaseToCamelCase, JsString.trim.
  rewrite (trimStart_plain s Hs), (trimEnd_plain s Hs).
  rewrite (toLowerCase_plain s Hs).
  apply replaceHyphenLetter_no_hyphen.
  apply forallb_impl with (p := JsChar.isPlain); [|done].
  intros c Hc. by rewrite (isPlain_not_hyphen c Hc).
Qed.

Lemma replaceHyphenLetter_other c rest :
  Ascii.eqb c "-" = false →
  JsString.replaceHyphenLetter (String c rest)
  = String c (JsString.replaceHyphenLetter rest).
Proof. intros Hc. simpl. by rewrite Hc. Qed.

Lemma replaceHyphenLetter_match c rest :
  JsChar.isLowerAZ c = true →
  JsString.replaceHyphenLetter (String "-" (String c rest))
  = String (JsChar.toUpperCase c) (JsString.replaceHyphenLetter rest).
Proof. intros Hc. simpl. by rewrite Hc. Qed.

Lemma replaceHyphenLetter_no_match c rest :
  JsChar.isLowerAZ c = false →
  JsString.replaceHyphenLetter (String "-" (String c rest))
  = String "-" (JsString.replaceHyphenLetter (String c rest)).
Proof.
  intros Hc.
  change (JsString.replaceHyphenLetter (String "-" (String c rest)))
    with (if JsChar.isLowerAZ c
          then String (JsChar.toUpperCase c) (JsString.replaceHyphenLetter rest)
          else String "-" (JsString.replaceHyphenLetter (String c rest))).
  by rewrite Hc.
Qed.

Lemma replaceHyphenLetter_last_hyphen :
  JsString.replaceHyphenLetter "-" = "-".
Proof. reflexivity. Qed.

(** The hyphen-letter replacement distributes over a split in front of a
    hyphen: no match straddles that position. *)
Lemma replaceHyphenLetter_before_hyphen pre t :
  JsString.replaceHyphenLetter (pre +:+ String "-" t)
  = JsString.replaceHyphenLetter pre
    +:+ JsString.replaceHyphenLetter (String "-" t).
Proof.
  revert t.
  assert (∀ pre,
    (∀ t, JsString.replaceHyphenLetter (pre +:+ String "-" t)
          = JsString.replaceHyphenLetter pre
            +:+ JsString.replaceHyphenLetter (String "-" t)) ∧
    (∀ c t, JsString.replaceHyphenLetter (String c pre +:+ String "-" t)
          = JsString.replaceHyphenLetter (String c pre)
            +:+ JsString.replaceHyphenLetter (String "-" t))) as Hboth.
  { clear pre. induction pre as [|d pre [IH1 IH2]].
    - split; [done|]. intros c t. rewrite append_cons, append_nil_l.
      destruct (Ascii.eqb c "-") eqn:Hc.
      + apply Ascii.eqb_eq in Hc as ->.
        rewrite replaceHyphenLetter_no_match by done.
        by rewrite replaceHyphenLetter_last_hyphen, append_cons, append_nil_l.
      + rewrite !(replaceHyphenLetter_other c) by done.
        by rewrite append_cons, append_nil_l.
    - split; [apply IH2|]. intros c t.
      rewrite (append_cons c).
      destruct (Ascii.eqb c "-") eqn:Hc.
      + apply Ascii.eqb_eq in Hc as ->. rewrite (append_cons d).
        destruct (JsChar.isLowerAZ d) eqn:Hd.
        * rewrite !replaceHyphenLetter_match by done.
          by rewrite IH1, append_cons.
        * rewrite !replaceHyphenLetter_no_match by done.
          rewrite <- (append_cons d), IH2. by rewrite append_cons.
      + rewrite !(replaceHyphenLetter_other c) by done.
        rewrite IH2. by rewrite append_cons. }
  intros t. apply Hboth.
Qed.

(** White-space runs: inside a run the rest of the run is skipped. *)
Lemma replaceWhiteSpaceRuns_from_skip r ws s :
  JsString.forallb JsChar.isWhiteSpace ws = true →
  JsString.replaceWhiteSpaceRuns_from true r (ws +:+ s)
  = JsString.replaceWhiteSpaceRuns_from true r s.
Proof.
  induction ws as [|c ws IH]; [done|]. simpl. intros [Hc Hws]%andb_prop.
  rewrite Hc. by apply IH.
Qed.

Lemma replaceWhiteSpaceRuns_from_run_end r s :
  JsString.startsWithWhiteSpace s = false →
  JsString.replaceWhiteSpaceRuns_from true r s
  = JsString.replaceWhiteSpaceRuns_from false r s.
Proof. destruct s as [|c s]; [done|]. simpl. by intros ->. Qed.

Lemma replaceWhiteSpaceRuns_from_word r w s :
  JsString.forallb (fun c => negb (JsChar.isWhiteSpace c)) w = true →
  JsString.replaceWhiteSpaceRuns_from false r (w +:+ s)
  = w +:+ JsString.replaceWhiteSpaceRuns_from false r s.
Proof.
  induction w as [|c w IH]; [done|]. simpl. intros [Hc Hw]%andb_prop.
  apply negb_true_iff in Hc. rewrite !append_cons. simpl. rewrite Hc.
  by rewrite IH.
Qed.

(** A word without white space is copied; a non-empty maximal run of white
    space after it becomes one copy of the replacement. *)
Lemma replaceWhiteSpaceRuns_word r w :
  JsString.forallb (fun c => negb (JsChar.isWhiteSpace c)) w = true →
  JsString.replaceWhiteSpaceRuns r w = w.
Proof.
  intros Hw. unfold JsString.replaceWhiteSpaceRuns.
  rewrite <- (append_nil_r w) at 1.
  by rewrite replaceWhiteSpaceRuns_from_word, append_nil_r.
Qed.

Lemma replaceWhiteSpaceRuns_word_run r w ws rest :
  JsString.forallb (fun c => negb (JsChar.isWhiteSpace c)) w = true →
  JsString.forallb JsChar.isWhiteSpace ws = true →
  ws ≠ "" →
  JsString.startsWithWhiteSpace rest = false →
  JsString.replaceWhiteSpaceRuns r (w +:+ ws +:+ rest)
  = w +:+ r +:+ JsString.replaceWhiteSpaceRuns r rest.
Proof.
  intros Hw Hws Hne Hrest. unfold JsString.replaceWhiteSpaceRuns.
  rewrite replaceWhiteSpaceRuns_from_word by done. f_equal.
  destruct ws as [|c ws]; [done|]. simpl in Hws.
  apply andb_prop in Hws as [Hc Hws].
  rewrite append_cons. simpl. rewrite Hc. f_equal.
  rewrite replaceWhiteSpaceRuns_from_skip by done.
  by apply replaceWhiteSpaceRuns_from_run_end.
Qed.

(** The plus replacement acts on each character on its own. *)
Lemma replacePlus_append r a b :
  JsString.replacePlus r (a +:+ b)
  = JsString.replacePlus r a +:+ JsString.replacePlus r b.
Proof.
  induction a as [|c a IH]; [done|]. rewrite append_cons. simpl.
  destruct (Ascii.eqb c "+").
  - by rewrite IH, append_assoc.
  - by rewrite IH, append_cons.
Qed.

Lemma replacePlus_plus r : JsString.replacePlus r "+" = r.
Proof. simpl. apply append_nil_r. Qed.

Lemma replacePlus_no_plus r s :
  JsString.forallb (fun c => negb (Ascii.eqb c "+")) s = true →
  JsString.replacePlus r s = s.
Proof.
  induction s as [|c s IH]; [done|]. simpl. intros [Hc Hs]%andb_prop.
  apply negb_true_iff in Hc. by rewrite Hc, IH.
Qed.

Lemma replaceHyphenLetter_agrees_with_wording s :
  Spec.hyphensPrecedeLetters s = true →
  JsString.replaceHyphenLetter s = Spec.removeEachHyphen s.
Proof.
  assert (∀ s,
    (Spec.hyphensPrecedeLetters s = true →
     JsString.replaceHyphenLetter s = Spec.removeEachHyphen s) ∧
    (∀ c, Spec.hyphensPrecedeLetters (String c s) = true →
     JsString.replaceHyphenLetter (String c s)
     = Spec.removeEachHyphen (String c s))) as Hboth.
  { clear s. induction s as [|d s [IH1 IH2]].
    - split; [done|]. intros c. simpl. by destruct (Ascii.eqb c "-").
    - split; [apply IH2|]. intros c.
      destruct (Ascii.eqb c "-") eqn:Hc.
      + apply Ascii.eqb_eq in Hc as ->.
        change (Spec.hyphensPrecedeLetters (String "-" (String d s)))
          with (JsChar.isLowerAZ d && Spec.hyphensPrecedeLetters s).
        intros [Hd Hs]%andb_prop.
        rewrite replaceHyphenLetter_match by done.
        change (Spec.removeEachHyphen (String "-" (String d s)))
          with (String (JsChar.toUpperCase d) (Spec.removeEachHyphen s)).
        by rewrite IH1.
      + rewrite replaceHyphenLetter_other by done.
        change (Spec.hyphensPrecedeLetters (String c (String d s)))
          with (if Ascii.eqb c "-"
                then JsChar.isLowerAZ d && Spec.hyphensPrecedeLetters s
                else Spec.hyphensPrecedeLetters (String d s)).
        change (Spec.removeEachHyphen (String c (String d s)))
          with (if Ascii.eqb c "-"
                then String (JsChar.toUpperCase d) (Spec.removeEachHyphen s)
                else String c (Spec.removeEachHyphen (String d s))).
        rewrite Hc. intros Hs. by rewrite IH2. }
  apply Hboth.
Qed.

(** ** The string converters *)

(** C3, as the code has it.  [kebabCaseToCamelCase] trims and lower-cases
    the whole string, then scans it for hyphens.  A hyphen immediately
    followed by a letter of a-z is removed and that letter is upper-cased;
    a hyphen followed by any other character, or ending the string, is
    kept.  On the strings in which every hyphen precedes such a letter this
    is the transformation the specification words. *)
Theorem kebabCaseToCamelCase_hyphen_before_letter (str : string) :
  let s := JsString.toLowerCase (JsString.trim str) in
  kebabCaseToCamelCase str = JsString.replaceHyphenLetter s
  ∧ (Spec.hyphensPrecedeLetters s = true →
     kebabCaseToCamelCase str = Spec.kebabCaseToCamelCase str)
  ∧ (∀ pre c rest,
       s = pre +:+ String "-" (String c rest) →
       JsChar.isLowerAZ c = true →
       kebabCaseToCamelCase str
       = JsString.replaceHyphenLetter pre
         +:+ String (JsChar.toUpperCase c) (JsString.replaceHyphenLetter rest))
  ∧ (∀ pre c rest,
       s = pre +:+ String "-" (String c rest) →
       JsChar.isLowerAZ c = false →
       kebabCaseToCamelCase str
       = JsString.replaceHyphenLetter pre
         +:+ String "-" (JsString.replaceHyphenLetter (String c rest)))
  ∧ (∀ pre,
       s = pre +:+ "-" →
       kebabCaseToCamelCase str = JsString.replaceHyphenLetter pre +:+ "-").
Proof.
  intros s. unfold kebabCaseToCamelCase, Spec.kebabCaseToCamelCase.
  fold s. repeat split.
  - apply replaceHyphenLetter_agrees_with_wording.
  - intros pre c rest -> Hc.
    by rewrite replaceHyphenLetter_before_hyphen, replaceHyphenLetter_match.
  - intros pre c rest -> Hc.
    by rewrite replaceHyphenLetter_before_hyphen, replaceHyphenLetter_no_match.
  - intros pre ->.
    rewrite replaceHyphenLetter_before_hyphen.
    by rewrite replaceHyphenLetter_last_hyphen.
Qed.

Lemma kebabCaseToCamelCase_hyphen_before_letter_witness :
  kebabCaseToCamelCase " Latest-iPod-2 "
  = JsString.replaceHyphenLetter "latest" +:+
    String (JsChar.toUpperCase "i") (JsString.replaceHyphenLetter "pod-2")
  ∧ kebabCaseToCamelCase " Latest-iPod-2 "
    = JsString.replaceHyphenLetter "latest-ipod" +:+
      String "-" (JsString.replaceHyphenLetter "2")
  ∧ kebabCaseToCamelCase "os-" = JsString.replaceHyphenLetter "os" +:+ "-"
  ∧ kebabCaseToCamelCase "Os-And-browser"
    = Spec.kebabCaseToCamelCase "Os-And-browser".
Proof.
  split; [|split; [|split]].
  - apply (kebabCaseToCamelCase_hyphen_before_letter " Latest-iPod-2 ");
      reflexivity.
  - apply (kebabCaseToCamelCase_hyphen_before_letter " Latest-iPod-2 ");
      reflexivity.
  - apply (kebabCaseToCamelCase_hyphen_before_letter "os-"); reflexivity.
  - apply (kebabCaseToCamelCase_hyphen_before_letter "Os-And-browser");
      reflexivity.
Defined.

(** C3, as the specification words it, fails: the hyphen of ["table-2"] is
    followed by a digit and stays. *)
Lemma kebabCaseToCamelCase_keeps_hyphen_before_digit :
  kebabCaseToCamelCase "table-2" = "table-2"
  ∧ Spec.kebabCaseToCamelCase "table-2" = "table2"
  ∧ kebabCaseToCamelCase "table-2" ≠ Spec.kebabCaseToCamelCase "table-2".
Proof. split; [reflexivity|]. split; [reflexivity|]. discriminate. Qed.

(** ** Trimming and white-space runs on labels *)

Lemma trimStart_leading leading s :
  JsString.forallb JsChar.isWhiteSpace leading = true →
  JsString.trimStart (leading +:+ s) = JsString.trimStart s.
Proof.
  induction leading as [|c leading IH]; [done|]. simpl.
  intros [Hc Hleading]%andb_prop. rewrite Hc. by apply IH.
Qed.

Lemma trimStart_id s :
  JsString.startsWithWhiteSpace s = false → JsString.trimStart s = s.
Proof. destruct s as [|c s]; [done|]. simpl. by intros ->. Qed.

Lemma trimEnd_whiteSpace trailing :
  JsString.forallb JsChar.isWhiteSpace trailing = true →
  JsString.trimEnd trailing = "".
Proof.
  induction trailing as [|c trailing IH]; [done|]. simpl.
  intros [Hc Htrailing]%andb_prop. by rewrite IH, Hc.
Qed.

Lemma trimEnd_trailing s trailing :
  JsString.forallb JsChar.isWhiteSpace trailing = true →
  JsString.trimEnd (s +:+ trailing) = JsString.trimEnd s.
Proof.
  intros Htrailing. induction s as [|c s IH].
  - rewrite append_nil_l. by apply trimEnd_whiteSpace.
  - rewrite append_cons. simpl. by rewrite IH.
Qed.

Lemma trimEnd_id s :
  JsText.endsWithWhiteSpace s = false → JsString.trimEnd s = s.
Proof.
  induction s as [|c s IH]; [done|]. destruct s as [|d s].
  - simpl. by intros ->.
  - intros Hs.
    change (JsText.endsWithWhiteSpace (String d s) = false) in Hs.
    change (JsString.trimEnd (String c (String d s)))
      with (match JsString.trimEnd (String d s) with
            | EmptyString =>
                if JsChar.isWhiteSpace c then EmptyString
                else String c EmptyString
            | r => String c r
            end).
    by rewrite (IH Hs).
Qed.

Lemma endsWithWhiteSpace_append a b :
  b ≠ "" →
  JsText.endsWithWhiteSpace (a +:+ b) = JsText.endsWithWhiteSpace b.
Proof.
  intros Hb. induction a as [|c a IH]; [done|].
  rewrite append_cons.
  destruct (a +:+ b) as [|d r] eqn:Hab.
  - destruct a; [by rewrite append_nil_l in Hab|by rewrite append_cons in Hab].
  - done.
Qed.

Lemma word_not_empty w : Label.isWord w = true → w ≠ "".
Proof. by destruct w. Qed.

Lemma word_no_whiteSpace w :
  Label.isWord w = true →
  JsString.forallb (fun c => negb (JsChar.isWhiteSpace c)) w = true.
Proof. by destruct w. Qed.

Lemma word_startsWithWhiteSpace w rest :
  Label.isWord w = true →
  JsString.startsWithWhiteSpace (w +:+ rest) = false.
Proof.
  destruct w as [|c w]; [done|]. simpl. intros [Hc _]%andb_prop.
  by apply negb_true_iff in Hc.
Qed.

Lemma word_endsWithWhiteSpace w :
  Label.isWord w = true → JsText.endsWithWhiteSpace w = false.
Proof.
  intros Hw. apply word_no_whiteSpace in Hw.
  induction w as [|c w IH]; [done|]. simpl in Hw.
  apply andb_prop in Hw as [Hc Hw]. destruct w as [|d w].
  - simpl. by apply negb_true_iff in Hc.
  - by apply IH.
Qed.

Lemma append_not_empty_l a b : a ≠ "" → a +:+ b ≠ "".
Proof. destruct a; [done|]. by rewrite append_cons. Qed.

Lemma append_not_empty_r a b : b ≠ "" → a +:+ b ≠ "".
Proof. destruct a; [done|]. by rewrite append_cons. Qed.

Lemma spaced_not_empty first rest :
  Label.isWord first = true → Label.spaced first rest ≠ "".
Proof.
  intros Hfirst. destruct rest as [|[run word] rest]; simpl.
  - by apply word_not_empty.
  - by apply append_not_empty_l, word_not_empty.
Qed.

Lemma spaced_startsWithWhiteSpace first rest :
  Label.isWord first = true →
  JsString.startsWithWhiteSpace (Label.spaced first rest) = false.
Proof.
  intros Hfirst. destruct rest as [|[run word] rest]; simpl.
  - rewrite <- (append_nil_r first). by apply word_startsWithWhiteSpace.
  - by apply word_startsWithWhiteSpace.
Qed.

Lemma spaced_endsWithWhiteSpace first rest :
  Label.isWord first = true →
  Label.wellFormed rest = true →
  JsText.endsWithWhiteSpace (Label.spaced first rest) = false.
Proof.
  revert first. induction rest as [|[run word] rest IH]; intros first Hfirst.
  - intros _. by apply word_endsWithWhiteSpace.
  - simpl. intros [[Hrun Hword]%andb_prop Hrest]%andb_prop.
    rewrite endsWithWhiteSpace_append.
    + rewrite endsWithWhiteSpace_append; [by apply IH|].
      by apply spaced_not_empty.
    + by apply append_not_empty_r, spaced_not_empty.
Qed.

(** Trimming removes the white space around the words and nothing else. *)
Lemma trim_spaced leading first rest trailing :
  JsString.forallb JsChar.isWhiteSpace leading = true →
  JsString.forallb JsChar.isWhiteSpace trailing = true →
  Label.isWord first = true →
  Label.wellFormed rest = true →
  JsString.trim (leading +:+ Label.spaced first rest +:+ trailing)
  = Label.spaced first rest.
Proof.
  intros Hleading Htrailing Hfirst Hrest. unfold JsString.trim.
  rewrite trimStart_leading by done.
  rewrite trimStart_id.
  - rewrite trimEnd_trailing by done.
    by apply trimEnd_id, spaced_endsWithWhiteSpace.
  - destruct rest as [|[run word] rest]; simpl.
    + by apply word_startsWithWhiteSpace.
    + rewrite append_assoc. by apply word_startsWithWhiteSpace.
Qed.

Lemma trim_whiteSpace s :
  JsString.forallb JsChar.isWhiteSpace s = true → JsString.trim s = "".
Proof.
  intros Hs. unfold JsString.trim.
  rewrite <- (append_nil_r s), trimStart_leading by done. done.
Qed.

(** Each run between two words becomes one hyphen. *)
Lemma replaceWhiteSpaceRuns_spaced first rest :
  Label.isWord first = true →
  Label.wellFormed rest = true →
  JsString.replaceWhiteSpaceRuns "-" (Label.spaced first rest)
  = Label.hyphenated first rest.
Proof.
  revert first. induction rest as [|[run word] rest IH]; intros first Hfirst.
  - intros _. simpl. by apply replaceWhiteSpaceRuns_word, word_no_whiteSpace.
  - simpl. intros [[Hrun Hword]%andb_prop Hrest]%andb_prop.
    rewrite replaceWhiteSpaceRuns_word_run.
    + by rewrite IH.
    + by apply word_no_whiteSpace.
    + by destruct run.
    + by destruct run.
    + by apply spaced_startsWithWhiteSpace.
Qed.

Section ConverterProperties.
Context `{Dom}.

Lemma textContentConverter_element (element : Node) (index : nat) :
  textContentConverter (Some element) index
  = Normal (JsString.trim (textContent element)).
Proof. reflexivity. Qed.

Lemma textContentConverter_null (index : nat) :
  textContentConverter None index = Normal "".
Proof. reflexivity. Qed.

Lemma idToCamelCaseConverter_element (element : Node) (index : nat) :
  idToCamelCaseConverter (Some element) index
  = Normal (kebabCaseToCamelCase (Element_id element)).
Proof. reflexivity. Qed.

Lemma idToCamelCaseConverter_null (index : nat) :
  idToCamelCaseConverter None index
  = Normal ("table" +:+ JsString.ofIndex index).
Proof.
  unfold idToCamelCaseConverter. simpl. f_equal.
  apply kebabCaseToCamelCase_plain.
  rewrite forallb_append. by rewrite ofIndex_plain.
Qed.

(** Without the guard of the optional chain the property read throws. *)
Lemma getProperty_null {A} (property : Node → A) :
  getProperty None property = Throw TypeError.
Proof. reflexivity. Qed.

Lemma textContentConverter_returns : alwaysReturns textContentConverter.
Proof. intros [element|] index; eexists; reflexivity. Qed.

Lemma textContentToCamelCaseConverter_returns :
  alwaysReturns textContentToCamelCaseConverter.
Proof. intros [element|] index; eexists; reflexivity. Qed.

Lemma idToCamelCaseConverter_returns : alwaysReturns idToCamelCaseConverter.
Proof. intros [element|] index; eexists; reflexivity. Qed.

(** C9.  Each default string converter returns a string, without throwing,
    for every element-or-null and every index; the text content converter
    returns the empty string for null. *)
Theorem default_converters_always_return :
  alwaysReturns textContentConverter
  ∧ alwaysReturns textContentToCamelCaseConverter
  ∧ alwaysReturns idToCamelCaseConverter
  ∧ (∀ index, textContentConverter None index = Normal "")
  ∧ (∀ element index,
       textContentConverter (Some element) index
       = Normal (JsString.trim (textContent element))).
Proof.
  split; [apply textContentConverter_returns|].
  split; [apply textContentToCamelCaseConverter_returns|].
  split; [apply idToCamelCaseConverter_returns|].
  split; [apply textContentConverter_null|].
  apply textContentConverter_element.
Qed.

(** C2, as the code has it.  The table-key converter returns the
    kebab-to-camel transform of the id element's [id] property, which is
    the value of its id attribute and the empty string when the element has
    no id attribute.  The fallback is taken when the id element itself is
    null: the converter then returns ["table"] followed by the index, which
    the transform leaves as it is.  A container at position 2 in which the
    id-element selector finds nothing gets the table key ["table2"]. *)
Theorem idToCamelCaseConverter_fallback_on_null
    (options : Options.t) (container : Node) (index : nat) :
  (∀ element value,
     idAttribute element = Some value →
     idToCamelCaseConverter (Some element) index
     = Normal (kebabCaseToCamelCase value))
  ∧ (∀ element,
       idAttribute element = None →
       idToCamelCaseConverter (Some element) index = Normal "")
  ∧ idToCamelCaseConverter None index
    = Normal (kebabCaseToCamelCase ("table" +:+ JsString.ofIndex index))
  ∧ idToCamelCaseConverter None index
    = Normal ("table" +:+ JsString.ofIndex index)
  ∧ idToCamelCaseConverter None 2 = Normal "table2"
  ∧ (Options.tableKeyConverter options = idToCamelCaseConverter →
     querySelector container (Options.idElementSelector options) = None →
     containerKey options container index
     = Normal ("table" +:+ JsString.ofIndex index)).
Proof.
  repeat split.
  - intros element value Hid. rewrite idToCamelCaseConverter_element.
    unfold Element_id. by rewrite Hid.
  - intros element Hid. rewrite idToCamelCaseConverter_element.
    unfold Element_id. by rewrite Hid.
  - apply idToCamelCaseConverter_null.
  - intros Hconverter Hnone. unfold containerKey.
    rewrite Hconverter, Hnone. apply idToCamelCaseConverter_null.
Qed.

(** C6.  The label converter takes the text content without the white
    space around it, replaces each run of white space between two words by
    one hyphen, then each plus sign by the word "and", and applies the
    kebab-to-camel transform.  The first two steps are stated on a label
    laid out as words, runs, leading and trailing white space; the plus
    replacement is stated by its action on a split at a plus sign and on a
    string without plus sign; the last step is the subject of C3. *)
Theorem textContentToCamelCaseConverter_label (element : Node) (index : nat) :
  textContentToCamelCaseConverter (Some element) index
  = Normal (kebabCaseToCamelCase
              (JsString.replacePlus "and"
                 (JsString.replaceWhiteSpaceRuns "-"
                    (JsString.trim (textContent element)))))
  ∧ (∀ leading first rest trailing,
       textContent element
       = leading +:+ Label.spaced first rest +:+ trailing →
       JsString.forallb JsChar.isWhiteSpace leading = true →
       JsString.forallb JsChar.isWhiteSpace trailing = true →
       Label.isWord first = true →
       Label.wellFormed rest = true →
       textContentToCamelCaseConverter (Some element) index
       = Normal (kebabCaseToCamelCase
                   (JsString.replacePlus "and" (Label.hyphenated first rest))))
  ∧ (JsString.forallb JsChar.isWhiteSpace (textContent element) = true →
     textContentToCamelCaseConverter (Some element) index = Normal "")
  ∧ (∀ before after,
       JsString.replacePlus "and" (before +:+ String "+" after)
       = JsString.replacePlus "and" before
         +:+ "and" +:+ JsString.replacePlus "and" after)
  ∧ (∀ s,
       JsString.forallb (fun c => negb (Ascii.eqb c "+")) s = true →
       JsString.replacePlus "and" s = s)
  ∧ (textContent element = "Most Common Desktop" →
     textContentToCamelCaseConverter (Some element) index
     = Normal "mostCommonDesktop")
  ∧ (textContent element = "OS + Browser" →
     textContentToCamelCaseConverter (Some element) index
     = Normal "osAndBrowser").
Proof.
  assert (textContentToCamelCaseConverter (Some element) index
          = Normal (kebabCaseToCamelCase
                      (JsString.replacePlus "and"
                         (JsString.replaceWhiteSpaceRuns "-"
                            (JsString.trim (textContent element))))))
    as Heq by reflexivity.
  split; [exact Heq|]. split; [|split; [|split; [|split; [|split]]]].
  - intros leading first rest trailing Htext Hleading Htrailing Hfirst Hrest.
    rewrite Heq, Htext, trim_spaced by done.
    by rewrite replaceWhiteSpaceRuns_spaced.
  - intros Hspace. by rewrite Heq, trim_whiteSpace.
  - intros before after.
    rewrite replacePlus_append.
    change (String "+" after) with ("+" +:+ after).
    by rewrite replacePlus_append, replacePlus_plus.
  - apply replacePlus_no_plus.
  - intros Htext. rewrite Heq, Htext. reflexivity.
  - intros Htext. rewrite Heq, Htext. reflexivity.
Qed.

End ConverterProperties.

Lemma idToCamelCaseConverter_fallback_on_null_witness :
  idToCamelCaseConverter
    (Some (Fixture.Element "h2" (Some "latest-ipod-useragents") [])) 0
  = Normal (kebabCaseToCamelCase "latest-ipod-useragents")
  ∧ idToCamelCaseConverter (Some (Fixture.Element "h2" None [])) 0 = Normal ""
  ∧ containerKey (normalizeOptions Fixture.given)
      (Fixture.Element "section" None [Fixture.agentsTable]) 2
    = Normal ("table" +:+ JsString.ofIndex 2).
Proof.
  split; [|split].
  - apply (idToCamelCaseConverter_fallback_on_null
             (normalizeOptions Fixture.given) Fixture.page 0).
    reflexivity.
  - apply (idToCamelCaseConverter_fallback_on_null
             (normalizeOptions Fixture.given) Fixture.page 0).
    reflexivity.
  - apply (idToCamelCaseConverter_fallback_on_null
             (normalizeOptions Fixture.given)
             (Fixture.Element "section" None [Fixture.agentsTable]) 2);
      reflexivity.
Defined.

(** C2, as the specification words it, fails on an id element that is
    present but carries no id attribute: at position 2 the key is the empty
    string, not ["table2"]. *)
Lemma idToCamelCaseConverter_element_without_id_attribute :
  idAttribute (Fixture.Element "h2" None [Fixture.Text "Latest"]) = None
  ∧ idToCamelCaseConverter
      (Some (Fixture.Element "h2" None [Fixture.Text "Latest"])) 2
    = Normal ""
  ∧ idToCamelCaseConverter
      (Some (Fixture.Element "h2" None [Fixture.Text "Latest"])) 2
    ≠ Normal (kebabCaseToCamelCase ("table" +:+ JsString.ofIndex 2)).
Proof. split; [reflexivity|]. split; [reflexivity|]. discriminate. Qed.

Lemma textContentToCamelCaseConverter_label_witness :
  textContentToCamelCaseConverter
    (Some (Fixture.th (String "009" " Most   Common  Desktop  "))) 0
  = Normal "mostCommonDesktop"
  ∧ textContentToCamelCaseConverter
      (Some (Fixture.th "  C++   +  Rust ")) 1
    = Normal "candandAndRust"
  ∧ textContentToCamelCaseConverter
      (Some (Fixture.th (String "010" "  "))) 2
    = Normal ""
  ∧ JsString.replacePlus "and" "a+b+c" = "aandbandc"
  ∧ JsString.replacePlus "and" "Rust" = "Rust"
  ∧ textContentToCamelCaseConverter
      (Some (Fixture.th "Most Common Desktop")) 0
    = Normal "mostCommonDesktop"
  ∧ textContentToCamelCaseConverter (Some (Fixture.th "OS + Browser")) 1
    = Normal "osAndBrowser".
Proof.
  split; [|split; [|split; [|split; [|split; [|split]]]]].
  - exact (proj1 (proj2 (@textContentToCamelCaseConverter_label Fixture.dom
             (Fixture.th (String "009" " Most   Common  Desktop  ")) 0))
             (String "009" " ") "Most"
             [("   ", "Common"); ("  ", "Desktop")] "  "
             eq_refl eq_refl eq_refl eq_refl eq_refl).
  - exact (proj1 (proj2 (@textContentToCamelCaseConverter_label Fixture.dom
             (Fixture.th "  C++   +  Rust ") 1))
             "  " "C++" [("   ", "+"); ("  ", "Rust")] " "
             eq_refl eq_refl eq_refl eq_refl eq_refl).
  - exact (proj1 (proj2 (proj2 (@textContentToCamelCaseConverter_label
             Fixture.dom (Fixture.th (String "010" "  ")) 2))) eq_refl).
  - exact (proj1 (proj2 (proj2 (proj2
             (@textContentToCamelCaseConverter_label Fixture.dom
                (Fixture.th "x") 0)))) "a" "b+c").
  - exact (proj1 (proj2 (proj2 (proj2 (proj2
             (@textContentToCamelCaseConverter_label Fixture.dom
                (Fixture.th "x") 0))))) "Rust" eq_refl).
  - apply (@textContentToCamelCaseConverter_label Fixture.dom
             (Fixture.th "Most Common Desktop") 0).
    reflexivity.
  - apply (@textContentToCamelCaseConverter_label Fixture.dom
             (Fixture.th "OS + Browser") 1).
    reflexivity.
Defined.

(** ** Completions, [Array.from] and [reduce] *)

Lemma bind_Normal_inv {A B} (m : Completion A) (k : A → Completion B) b :
  m ≫= k = Normal b → ∃ a, m = Normal a ∧ k a = Normal b.
Proof. destruct m as [a|e]; [|done]. intros Hk. by exists a. Qed.

Lemma bind_Normal {A B} (m : Completion A) (k : A → Completion B) a :
  m = Normal a → m ≫= k = k a.
Proof. by intros ->. Qed.

Lemma Array_reduce_at_app {A B} (callback : B → A → nat → Completion B)
    (front back : list A) (index : nat) (acc : B) :
  Array_reduce_at callback (front ++ back) index acc
  = Array_reduce_at callback front index acc
    ≫= Array_reduce_at callback back (index + length front).
Proof.
  revert index acc. induction front as [|item front IH]; intros index acc.
  - simpl. by rewrite Nat.add_0_r.
  - simpl. destruct (callback acc item index) as [acc'|e]; [|done]. simpl.
    rewrite IH. by rewrite Nat.add_succ_comm.
Qed.

Lemma Array_reduce_at_returns {A B} (callback : B → A → nat → Completion B)
    (items : list A) (index : nat) (acc : B) :
  (∀ acc item index, item ∈ items →
     ∃ acc', callback acc item index = Normal acc') →
  ∃ result, Array_reduce_at callback items index acc = Normal result.
Proof.
  revert index acc. induction items as [|item items IH]; intros index acc Hcb.
  - by exists acc.
  - simpl. destruct (Hcb acc item index) as [acc' ->]; [left|]. simpl.
    apply IH. intros ? ? ? ?. apply Hcb. by right.
Qed.

Lemma Array_from_at_returns {A B} (mapFn : A → nat → Completion B)
    (items : list A) (index : nat) :
  (∀ item index, item ∈ items → ∃ value, mapFn item index = Normal value) →
  ∃ values, Array_from_at mapFn items index = Normal values.
Proof.
  revert index. induction items as [|item items IH]; intros index Hfn.
  - by exists [].
  - simpl. destruct (Hfn item index) as [value ->]; [left|]. simpl.
    destruct (IH (S index)) as [values ->].
    { intros ? ? ?. apply Hfn. by right. }
    by exists (value :: values).
Qed.

(** The array built by [Array.from] has one value per item, the value of
    the item at that position. *)
Lemma Array_from_at_lookup {A B} (mapFn : A → nat → Completion B)
    (items : list A) (index : nat) (values : list B) :
  Array_from_at mapFn items index = Normal values →
  length values = length items
  ∧ ∀ i item, items !! i = Some item →
      ∃ value, mapFn item (index + i) = Normal value
               ∧ values !! i = Some value.
Proof.
  revert index values.
  induction items as [|item items IH]; intros index values.
  - simpl. intros [= <-]. split; [done|]. intros i item Hi. done.
  - simpl. intros (value & Hvalue & Hrest)%bind_Normal_inv.
    apply bind_Normal_inv in Hrest as (rest & Hrest & [= <-]).
    destruct (IH _ _ Hrest) as [Hlen Hlookup]. split; [simpl; by rewrite Hlen|].
    intros [|i] item' Hi; simpl in Hi.
    + injection Hi as <-. exists value. by rewrite Nat.add_0_r.
    + destruct (Hlookup i item' Hi) as (value' & Hvalue' & Hi').
      exists value'. by rewrite <- Nat.add_succ_comm.
Qed.

(** ** The key/value mapper *)

Section MapperProperties.
Context `{Dom}.
Implicit Types (keys : list string) (elements : list Node).
Implicit Types (record acc : gmap string string).

Local Abbreviation assign keys valueConverter :=
  (fun acc element index =>
     value ← valueConverter (Some element) index;
     Normal (<[toPropertyKey (keys !! index) := value]> acc)).

Lemma keysAndElementsMapper_returns keys elements valueConverter :
  alwaysReturns valueConverter →
  ∃ record, keysAndElementsMapper keys elements valueConverter = Normal record.
Proof.
  intros Hconv. apply Array_reduce_at_returns. intros acc element index _.
  destruct (Hconv (Some element) index) as [value ->]. by eexists.
Qed.

Lemma assign_unchanged keys valueConverter elements index acc record k :
  Array_reduce_at (assign keys valueConverter) elements index acc
  = Normal record →
  (∀ j, j < length elements → toPropertyKey (keys !! (index + j)) ≠ k) →
  record !! k = acc !! k.
Proof.
  revert index acc.
  induction elements as [|element elements IH]; intros index acc.
  - simpl. by intros [= <-].
  - simpl. intros (acc' & Hstep & Hrest)%bind_Normal_inv Hother.
    apply bind_Normal_inv in Hstep as (value & _ & [= <-]).
    rewrite (IH _ _ Hrest).
    + apply lookup_insert_ne. specialize (Hother 0).
      rewrite Nat.add_0_r in Hother. apply Hother. lia.
    + intros j Hj. rewrite Nat.add_succ_comm. apply Hother. lia.
Qed.

Lemma assign_last keys valueConverter elements index acc record j element k :
  Array_reduce_at (assign keys valueConverter) elements index acc
  = Normal record →
  elements !! j = Some element →
  toPropertyKey (keys !! (index + j)) = k →
  (∀ j', j < j' → j' < length elements →
         toPropertyKey (keys !! (index + j')) ≠ k) →
  ∃ value, valueConverter (Some element) (index + j) = Normal value
           ∧ record !! k = Some value.
Proof.
  revert index acc j.
  induction elements as [|first elements IH]; intros index acc j; [done|].
  simpl. intros (acc' & Hstep & Hrest)%bind_Normal_inv Hj Hk Hlater.
  apply bind_Normal_inv in Hstep as (value & Hvalue & [= <-]).
  destruct j as [|j]; simpl in Hj.
  - injection Hj as ->. exists value. rewrite Nat.add_0_r in *.
    split; [done|]. rewrite (assign_unchanged _ _ _ _ _ _ k Hrest).
    + rewrite Hk. apply lookup_insert_eq.
    + intros j' Hj'. rewrite Nat.add_succ_comm. apply Hlater; lia.
  - rewrite <- Nat.add_succ_comm in *.
    apply (IH _ _ _ Hrest Hj Hk).
    intros j' Hlt Hlen. rewrite Nat.add_succ_comm. apply Hlater; lia.
Qed.

Lemma assign_origin keys valueConverter elements index acc record k :
  Array_reduce_at (assign keys valueConverter) elements index acc
  = Normal record →
  is_Some (record !! k) →
  is_Some (acc !! k)
  ∨ ∃ j, j < length elements ∧ toPropertyKey (keys !! (index + j)) = k.
Proof.
  revert index acc.
  induction elements as [|element elements IH]; intros index acc.
  - simpl. intros [= <-]. by left.
  - simpl. intros (acc' & Hstep & Hrest)%bind_Normal_inv Hk.
    apply bind_Normal_inv in Hstep as (value & _ & [= <-]).
    destruct (IH _ _ Hrest Hk) as [Hacc|(j & Hj & Hkey)].
    + destruct (decide (toPropertyKey (keys !! index) = k)) as [Heq|Hne].
      * right. exists 0. rewrite Nat.add_0_r. split; [lia|done].
      * left. by rewrite lookup_insert_ne in Hacc.
    + right. exists (S j). rewrite <- Nat.add_succ_comm. split; [lia|done].
Qed.

Lemma assign_present keys valueConverter elements index acc record k :
  Array_reduce_at (assign keys valueConverter) elements index acc
  = Normal record →
  is_Some (acc !! k)
  ∨ (∃ j, j < length elements ∧ toPropertyKey (keys !! (index + j)) = k) →
  is_Some (record !! k).
Proof.
  revert index acc.
  induction elements as [|element elements IH]; intros index acc.
  - simpl. intros [= <-] [Hacc|(j & Hj & _)]; [done|lia].
  - simpl. intros (acc' & Hstep & Hrest)%bind_Normal_inv Hk.
    apply bind_Normal_inv in Hstep as (value & _ & [= <-]).
    apply (IH _ _ Hrest).
    destruct Hk as [Hacc|([|j] & Hj & Hkey)].
    + left. rewrite lookup_insert. case_decide; [by eexists|done].
    + left. rewrite Nat.add_0_r in Hkey. rewrite Hkey.
      rewrite lookup_insert_eq. by eexists.
    + right. exists j. rewrite Nat.add_succ_comm. split; [lia|done].
Qed.

End MapperProperties.

(** ** The table converter *)

Section TableProperties.
Context `{Dom}.

Local Abbreviation appendRecord options headers :=
  (fun (acc : list (gmap string string)) (cells : list Node) (_ : nat) =>
     if decide (length cells = length headers%list)
     then
       record ← Options.keysAndElementsMapper options headers%list cells
                  (Options.cellValueConverter options);
       Normal (acc ++ [record])
     else Normal acc).

Lemma filter_all {A} (P : A → Prop) `{∀ x, Decision (P x)} (l : list A) :
  (∀ x, x ∈ l → P x) → filter P l = l.
Proof.
  induction l as [|x l IH]; [done|]. intros Hall.
  rewrite filter_cons_True by (apply Hall; left).
  f_equal. apply IH. intros y Hy. apply Hall. by right.
Qed.

Lemma tableHeaders_returns table options :
  alwaysReturns (Options.headerKeyConverter options) →
  ∃ headers, tableHeaders table options = Normal headers.
Proof.
  intros Hconv. apply Array_from_at_returns. intros th index _.
  apply Hconv.
Qed.

Lemma tableHeaders_length table options headers :
  tableHeaders table options = Normal headers →
  length headers
  = length (querySelectorAll table (Options.headerSelector options)).
Proof. intros Hheaders. by apply Array_from_at_lookup in Hheaders as [? _]. Qed.

(** What the row reducer appends: one record per cell sequence of matching
    length, in order. *)
Lemma appendRecord_records options headers rows index acc result :
  Array_reduce_at (appendRecord options headers) rows index acc
  = Normal result →
  ∃ records,
    result = acc ++ records
    ∧ Forall2
        (fun cells record =>
           Options.keysAndElementsMapper options headers cells
             (Options.cellValueConverter options) = Normal record)
        (filter (fun cells => length cells = length headers) rows) records.
Proof.
  revert index acc. induction rows as [|cells rows IH]; intros index acc.
  - simpl. intros [= <-]. exists []. by rewrite app_nil_r.
  - simpl. intros (acc' & Hstep & Hrest)%bind_Normal_inv.
    destruct (IH _ _ Hrest) as (records & -> & Hrecords).
    rewrite filter_cons. case_decide as Hlength.
    + apply bind_Normal_inv in Hstep as (record & Hrecord & [= <-]).
      exists (record :: records). rewrite <- app_assoc. split; [done|].
      by constructor.
    + injection Hstep as <-. by exists records.
Qed.

Lemma appendRecord_returns options headers rows index acc :
  (∀ cells, ∃ record,
     Options.keysAndElementsMapper options headers cells
       (Options.cellValueConverter options) = Normal record) →
  ∃ result,
    Array_reduce_at (appendRecord options headers) rows index acc
    = Normal result.
Proof.
  intros Hmapper. apply Array_reduce_at_returns. intros acc' cells _ _.
  case_decide; [|by eexists].
  destruct (Hmapper cells) as [record ->]. by eexists.
Qed.

Lemma convertTableToRecordArray_Normal_inv table options records :
  convertTableToRecordArray table options = Normal records →
  ∃ headers,
    tableHeaders table options = Normal headers
    ∧ Forall2
        (fun cells record =>
           Options.keysAndElementsMapper options headers cells
             (Options.cellValueConverter options) = Normal record)
        (filter (fun cells => length cells = length headers)
           (tableRows table options))
        records.
Proof.
  unfold convertTableToRecordArray.
  intros (headers & Hheaders & Hrows)%bind_Normal_inv.
  exists headers. split; [done|].
  apply appendRecord_records in Hrows as (records' & -> & Hrecords).
  done.
Qed.

Lemma convertTableToRecordArray_returns table options :
  honoursContract options →
  ∃ records, convertTableToRecordArray table options = Normal records.
Proof.
  intros Hcontract. unfold convertTableToRecordArray.
  destruct (tableHeaders_returns table options) as [headers ->].
  { apply Hcontract. }
  simpl. apply appendRecord_returns. intros cells. apply Hcontract.
Qed.

(** C4.  With converters and a mapper that honour their contract, the
    table converter returns, without error, the records of exactly the rows
    whose cell count equals the header count (the number of header cells),
    one record per such row, in document order and with no gap; the other
    rows contribute nothing.  When every row has the header count of cells,
    there are as many records as rows. *)
Theorem convertTableToRecordArray_one_record_per_matching_row
    (table : Node) (options : Options.t) :
  honoursContract options →
  ∃ headers records,
    tableHeaders table options = Normal headers
    ∧ length headers
      = length (querySelectorAll table (Options.headerSelector options))
    ∧ convertTableToRecordArray table options = Normal records
    ∧ Forall2
        (fun cells record =>
           Options.keysAndElementsMapper options headers cells
             (Options.cellValueConverter options) = Normal record)
        (filter (fun cells => length cells = length headers)
           (tableRows table options))
        records
    ∧ length records
      = length (filter (fun cells => length cells = length headers)
                  (tableRows table options))
    ∧ ((∀ cells, cells ∈ tableRows table options →
                 length cells = length headers) →
       length records
       = length (querySelectorAll table (Options.rowSelector options))).
Proof.
  intros Hcontract.
  destruct (convertTableToRecordArray_returns table options Hcontract)
    as [records Hrecords].
  destruct (convertTableToRecordArray_Normal_inv _ _ _ Hrecords)
    as (headers & Hheaders & Hforall).
  exists headers, records.
  split; [done|]. split; [by apply tableHeaders_length|].
  split; [done|]. split; [done|].
  pose proof (Forall2_length _ _ _ Hforall) as Hlength.
  split; [done|].
  intros Hall. rewrite <- Hlength.
  rewrite filter_all by done.
  unfold tableRows. by rewrite length_map.
Qed.

End TableProperties.

Section RecordProperties.
Context `{Dom}.

(** C1, as the code has it.  With a converter that honours its contract
    the mapper returns a record whose keys are the property names
    [keys[i]] of the element positions [i].  When the element sequence is
    not longer than the key sequence these are the keys of the paired
    indices only.  When it is longer, [keys[i]] is undefined at every
    out-of-range position and the entry is made under the name
    ["undefined"], which ends up holding the value of the last element. *)
Theorem keysAndElementsMapper_record_keys
    (keys : list string) (elements : list Node)
    (valueConverter : ElementToStringConverter) :
  alwaysReturns valueConverter →
  ∃ record,
    keysAndElementsMapper keys elements valueConverter = Normal record
    ∧ (∀ k, is_Some (record !! k) ↔
            ∃ i, i < length elements ∧ toPropertyKey (keys !! i) = k)
    ∧ (length elements ≤ length keys →
       ∀ k, is_Some (record !! k) ↔
            ∃ i, i < length elements ∧ keys !! i = Some k)
    ∧ (length keys < length elements →
       ∀ element, last elements = Some element →
       ∃ value,
         valueConverter (Some element) (length elements - 1) = Normal value
         ∧ record !! "undefined" = Some value).
Proof.
  intros Hconv.
  destruct (keysAndElementsMapper_returns keys elements valueConverter Hconv)
    as [record Hrecord].
  exists record. split; [done|].
  assert (∀ k, is_Some (record !! k) ↔
               ∃ i, i < length elements ∧ toPropertyKey (keys !! i) = k)
    as Hkeys.
  { intros k. split.
    - intros Hk. destruct (assign_origin _ _ _ _ _ _ _ Hrecord Hk)
        as [Hempty|Hindex]; [|done].
      rewrite lookup_empty in Hempty. by destruct Hempty.
    - intros Hindex. apply (assign_present _ _ _ _ _ _ _ Hrecord).
      by right. }
  split; [done|]. split.
  - intros Hlength k. rewrite Hkeys. split.
    + intros (i & Hi & Hkey). exists i. split; [done|].
      destruct (lookup_lt_is_Some_2 keys i) as [key Hlookup]; [lia|].
      rewrite Hlookup in Hkey. simpl in Hkey. by subst.
    + intros (i & Hi & Hkey). exists i. split; [done|]. by rewrite Hkey.
  - intros Hlength element Hlast.
    rewrite last_lookup in Hlast.
    replace (pred (length elements)) with (length elements - 1) in Hlast
      by lia.
    apply (assign_last _ _ _ 0 _ _ _ _ _ Hrecord Hlast).
    + simpl. rewrite lookup_ge_None_2 by lia. done.
    + intros j' Hlt Hlen. lia.
Qed.

(** C8.  When the header keys contain duplicates the mapper still returns
    a record, and every key holds the value of the last cell paired with
    it.  In the table converter a row with the header count of cells is
    therefore kept and its record follows this rule. *)
Theorem keysAndElementsMapper_last_cell_wins :
  (∀ (keys : list string) (elements : list Node)
     (valueConverter : ElementToStringConverter),
     alwaysReturns valueConverter →
     length elements ≤ length keys →
     ∃ record,
       keysAndElementsMapper keys elements valueConverter = Normal record
       ∧ ∀ i k element,
           keys !! i = Some k →
           elements !! i = Some element →
           (∀ j, i < j → j < length elements → keys !! j ≠ Some k) →
           ∃ value,
             valueConverter (Some element) i = Normal value
             ∧ record !! k = Some value)
  ∧ (∀ (table : Node) (options : Options.t),
       honoursContract options →
       Options.keysAndElementsMapper options = keysAndElementsMapper →
       ∃ headers records,
         tableHeaders table options = Normal headers
         ∧ convertTableToRecordArray table options = Normal records
         ∧ Forall2
             (fun cells record =>
                ∀ i k cell,
                  headers !! i = Some k →
                  cells !! i = Some cell →
                  (∀ j, i < j → j < length cells → headers !! j ≠ Some k) →
                  ∃ value,
                    Options.cellValueConverter options (Some cell) i
                    = Normal value
                    ∧ record !! k = Some value)
             (filter (fun cells => length cells = length headers)
                (tableRows table options))
             records).
Proof.
  assert (∀ (keys : list string) (elements : list Node)
            (valueConverter : ElementToStringConverter) record,
            length elements ≤ length keys →
            keysAndElementsMapper keys elements valueConverter
            = Normal record →
            ∀ i k element,
              keys !! i = Some k →
              elements !! i = Some element →
              (∀ j, i < j → j < length elements → keys !! j ≠ Some k) →
              ∃ value,
                valueConverter (Some element) i = Normal value
                ∧ record !! k = Some value) as Hlast.
  { intros keys elements valueConverter record Hlength Hrecord
      i k element Hkey Helement Hlater.
    apply (assign_last _ _ _ 0 _ _ _ _ _ Hrecord Helement).
    - simpl. by rewrite Hkey.
    - intros j Hlt Hj. simpl.
      destruct (lookup_lt_is_Some_2 keys j) as [key Hlookup]; [lia|].
      rewrite Hlookup. simpl. intros ->. by apply (Hlater j). }
  split.
  - intros keys elements valueConverter Hconv Hlength.
    destruct (keysAndElementsMapper_returns keys elements valueConverter Hconv)
      as [record Hrecord].
    exists record. split; [done|]. by apply Hlast.
  - intros table options Hcontract Hmapper.
    destruct (convertTableToRecordArray_returns table options Hcontract)
      as [records Hrecords].
    destruct (convertTableToRecordArray_Normal_inv _ _ _ Hrecords)
      as (headers & Hheaders & Hforall).
    exists headers, records. split; [done|]. split; [done|].
    apply Forall2_same_length_lookup. split.
    { by apply Forall2_length in Hforall. }
    intros n cells record Hcells Hrecord.
    pose proof (Forall2_lookup_lr _ _ _ _ _ _ Hforall Hcells Hrecord)
      as Hmapped.
    rewrite Hmapper in Hmapped.
    apply list_elem_of_lookup_2, list_elem_of_filter in Hcells as [Hlength _].
    apply (Hlast headers cells _ record); [lia|done].
Qed.

End RecordProperties.

(** ** The document extractor *)

Section ExtractorProperties.
Context `{Dom}.
Implicit Types (entries : list (string * option Node)).
Implicit Types (result acc : gmap string (list (gmap string string))).

Lemma addTable_index options acc entry index index' :
  addTable options acc entry index = addTable options acc entry index'.
Proof. reflexivity. Qed.

Lemma collect_index options entries index index' acc :
  Array_reduce_at (addTable options) entries index acc
  = Array_reduce_at (addTable options) entries index' acc.
Proof.
  revert index index' acc.
  induction entries as [|entry entries IH]; intros index index' acc; [done|].
  simpl. rewrite (addTable_index _ _ _ index index').
  destruct (addTable options acc entry index'); [|done]. simpl. apply IH.
Qed.

(** An entry without a table leaves the accumulator as it is. *)
Lemma collect_skip options before after id index acc :
  Array_reduce_at (addTable options) (before ++ (id, None) :: after) index acc
  = Array_reduce_at (addTable options) (before ++ after) index acc.
Proof.
  rewrite !Array_reduce_at_app.
  destruct (Array_reduce_at (addTable options) before index acc); [|done].
  simpl. apply collect_index.
Qed.

Lemma collect_returns options entries index acc :
  (∀ table, ∃ records,
     convertTableToRecordArray table options = Normal records) →
  ∃ result,
    Array_reduce_at (addTable options) entries index acc = Normal result.
Proof.
  intros Hconvert. apply Array_reduce_at_returns.
  intros acc' [id [table|]] index' _; unfold addTable; simpl.
  - destruct (Hconvert table) as [records ->]. by eexists.
  - by eexists.
Qed.

Lemma collect_unchanged options entries index acc result k :
  Array_reduce_at (addTable options) entries index acc = Normal result →
  (∀ table, (k, Some table) ∉ entries) →
  result !! k = acc !! k.
Proof.
  revert index acc.
  induction entries as [|[id table] entries IH]; intros index acc.
  - simpl. by intros [= <-].
  - simpl. intros (acc' & Hstep & Hrest)%bind_Normal_inv Hnone.
    rewrite (IH _ _ Hrest).
    + destruct table as [table|]; unfold addTable in Hstep; simpl in Hstep.
      * apply bind_Normal_inv in Hstep as (records & _ & [= <-]).
        apply lookup_insert_ne. intros ->. apply (Hnone table). left.
      * by injection Hstep as <-.
    + intros table' Hin. apply (Hnone table'). by right.
Qed.

Lemma collect_last options entries index acc result j k table :
  Array_reduce_at (addTable options) entries index acc = Normal result →
  entries !! j = Some (k, Some table) →
  (∀ j' table', j < j' → entries !! j' ≠ Some (k, Some table')) →
  ∃ records,
    convertTableToRecordArray table options = Normal records
    ∧ result !! k = Some records.
Proof.
  revert index acc j.
  induction entries as [|entry entries IH]; intros index acc j; [done|].
  simpl. intros (acc' & Hstep & Hrest)%bind_Normal_inv Hj Hlater.
  destruct j as [|j]; simpl in Hj.
  - injection Hj as ->. unfold addTable in Hstep. simpl in Hstep.
    apply bind_Normal_inv in Hstep as (records & Hrecords & [= <-]).
    exists records. split; [done|].
    rewrite (collect_unchanged _ _ _ _ _ k Hrest).
    + apply lookup_insert_eq.
    + intros table' (j' & Hj')%list_elem_of_lookup_1.
      apply (Hlater (S j') table'); [lia|done].
  - apply (IH _ _ _ Hrest Hj).
    intros j' table' Hlt. apply (Hlater (S j') table'). lia.
Qed.

Lemma collect_origin options entries index acc result k records :
  Array_reduce_at (addTable options) entries index acc = Normal result →
  result !! k = Some records →
  acc !! k = Some records
  ∨ ∃ j table,
      entries !! j = Some (k, Some table)
      ∧ convertTableToRecordArray table options = Normal records.
Proof.
  revert index acc.
  induction entries as [|[id table] entries IH]; intros index acc.
  - simpl. intros [= <-]. by left.
  - simpl. intros (acc' & Hstep & Hrest)%bind_Normal_inv Hk.
    destruct (IH _ _ Hrest Hk) as [Hacc|(j & table' & Hj & Hrecords)].
    + destruct table as [table|]; unfold addTable in Hstep; simpl in Hstep.
      * apply bind_Normal_inv in Hstep as (records' & Hrecords' & [= <-]).
        rewrite lookup_insert in Hacc. case_decide as Hid.
        -- injection Hacc as <-. subst id. right. by exists 0, table.
        -- by left.
      * injection Hstep as <-. by left.
    + right. by exists (S j), table'.
Qed.

Lemma collect_present options entries index acc result k :
  Array_reduce_at (addTable options) entries index acc = Normal result →
  is_Some (acc !! k) ∨ (∃ table, (k, Some table) ∈ entries) →
  is_Some (result !! k).
Proof.
  revert index acc.
  induction entries as [|[id table] entries IH]; intros index acc.
  - simpl. intros [= <-] [Hacc|(table & Hin)]; [done|]. by inversion Hin.
  - simpl. intros (acc' & Hstep & Hrest)%bind_Normal_inv Hk.
    apply (IH _ _ Hrest).
    destruct Hk as [Hacc|(table' & Hin)].
    + left. destruct table as [table|]; unfold addTable in Hstep;
        simpl in Hstep.
      * apply bind_Normal_inv in Hstep as (records & _ & [= <-]).
        rewrite lookup_insert. case_decide; [by eexists|done].
      * by injection Hstep as <-.
    + apply elem_of_cons in Hin as [[= <- <-]|Hin].
      * left. unfold addTable in Hstep. simpl in Hstep.
        apply bind_Normal_inv in Hstep as (records & _ & [= <-]).
        rewrite lookup_insert_eq. by eexists.
      * right. by exists table'.
Qed.

(** The entries are the containers' key and table, position by position. *)
Lemma tableEntries_lookup options root entries :
  Options.root options = Some root →
  tableEntries options = Normal entries →
  length entries = length (scopeContainers options root)
  ∧ ∀ i container,
      scopeContainers options root !! i = Some container →
      ∃ id, containerKey options container i = Normal id
            ∧ entries !! i = Some (id, containerTable options container).
Proof.
  unfold tableEntries. intros ->. simpl. intros Hentries.
  apply Array_from_at_lookup in Hentries as [Hlength Hlookup].
  split; [done|]. intros i container Hi.
  destruct (Hlookup i container Hi) as ([id table] & Hvalue & Hentry).
  simpl in Hvalue.
  apply bind_Normal_inv in Hvalue as (id' & Hid & [= <- <-]).
  by exists id'.
Qed.

Lemma tableEntries_lookup_inv options root entries i id table :
  Options.root options = Some root →
  tableEntries options = Normal entries →
  entries !! i = Some (id, table) →
  ∃ container,
    scopeContainers options root !! i = Some container
    ∧ containerKey options container i = Normal id
    ∧ containerTable options container = table.
Proof.
  intros Hroot Hentries Hi.
  destruct (tableEntries_lookup _ _ _ Hroot Hentries) as [Hlength Hlookup].
  destruct (lookup_lt_is_Some_2 (scopeContainers options root) i)
    as [container Hcontainer].
  { rewrite <- Hlength. by apply lookup_lt_Some in Hi. }
  exists container. split; [done|].
  destruct (Hlookup i container Hcontainer) as (id' & Hid & Hentry).
  rewrite Hi in Hentry. by injection Hentry as <- <-.
Qed.

Lemma tableEntries_returns options root :
  Options.root options = Some root →
  alwaysReturns (Options.tableKeyConverter options) →
  ∃ entries, tableEntries options = Normal entries.
Proof.
  unfold tableEntries. intros -> Hconv. simpl.
  apply Array_from_at_returns. intros container index _.
  unfold containerKey.
  destruct (Hconv (querySelector container (Options.idElementSelector options))
              index) as [id ->].
  by eexists.
Qed.

Lemma getTablesAsRecord_returns getTableAsRecordOptions root :
  let options := normalizeOptions getTableAsRecordOptions in
  honoursContract options →
  Options.root options = Some root →
  ∃ entries result,
    tableEntries options = Normal entries
    ∧ collectTables options entries = Normal result
    ∧ getTablesAsRecord getTableAsRecordOptions = Normal result.
Proof.
  intros options Hcontract Hroot.
  destruct (tableEntries_returns options root Hroot) as [entries Hentries].
  { apply Hcontract. }
  destruct (collect_returns options entries 0 ∅) as [result Hresult].
  { intros table. by apply convertTableToRecordArray_returns. }
  exists entries, result. split; [done|]. split; [done|].
  unfold getTablesAsRecord. fold options. by rewrite Hentries.
Qed.

End ExtractorProperties.

Section ExtractorClaims.
Context `{Dom}.

Lemma filter_none {A} (P : A → Prop) `{∀ x, Decision (P x)} (l : list A) :
  (∀ x, x ∈ l → ¬ P x) → filter P l = [].
Proof.
  induction l as [|x l IH]; [done|]. intros Hnone.
  rewrite filter_cons_False by (apply Hnone; left).
  apply IH. intros y Hy. apply Hnone. by right.
Qed.

(** The default converters and mapper honour the contract, whatever the
    selectors and the root are. *)
Lemma normalizeOptions_honoursContract getTableAsRecordOptions :
  GivenOptions.headerKeyConverter getTableAsRecordOptions = None →
  GivenOptions.cellValueConverter getTableAsRecordOptions = None →
  GivenOptions.tableKeyConverter getTableAsRecordOptions = None →
  GivenOptions.keysAndElementsMapper getTableAsRecordOptions = None →
  honoursContract (normalizeOptions getTableAsRecordOptions).
Proof.
  intros Hheader Hcell Hkey Hmapper.
  split; unfold normalizeOptions; simpl.
  - rewrite Hheader. apply textContentToCamelCaseConverter_returns.
  - rewrite Hcell. apply textContentConverter_returns.
  - rewrite Hkey. apply idToCamelCaseConverter_returns.
  - rewrite Hmapper, Hcell. simpl. intros keys elements.
    apply keysAndElementsMapper_returns, textContentConverter_returns.
Qed.


(** C7.  A scope container in which the table selector finds nothing is
    skipped: the result is what the entries of the other containers
    produce, every entry of the result comes from another container, one
    that holds a table, and no error is raised on its account. *)
Theorem getTablesAsRecord_skips_container_without_table
    (getTableAsRecordOptions : GivenOptions.t) (root : Node)
    (i : nat) (container : Node) :
  let options := normalizeOptions getTableAsRecordOptions in
  Options.root options = Some root →
  scopeContainers options root !! i = Some container →
  containerTable options container = None →
  (∀ entries,
     tableEntries options = Normal entries →
     getTablesAsRecord getTableAsRecordOptions
     = collectTables options (take i entries ++ drop (S i) entries))
  ∧ (honoursContract options →
     ∃ result, getTablesAsRecord getTableAsRecordOptions = Normal result)
  ∧ (∀ result k records,
       getTablesAsRecord getTableAsRecordOptions = Normal result →
       result !! k = Some records →
       ∃ i' container' table,
         i' ≠ i
         ∧ scopeContainers options root !! i' = Some container'
         ∧ containerKey options container' i' = Normal k
         ∧ containerTable options container' = Some table
         ∧ convertTableToRecordArray table options = Normal records).
Proof.
  intros options Hroot Hcontainer Htable. split; [|split].
  - intros entries Hentries.
    unfold getTablesAsRecord. fold options. rewrite Hentries. simpl.
    destruct (tableEntries_lookup _ _ _ Hroot Hentries) as [_ Hlookup].
    destruct (Hlookup i container Hcontainer) as (id & _ & Hentry).
    rewrite Htable in Hentry.
    rewrite <- (take_drop_middle entries i (id, None) Hentry) at 1.
    apply collect_skip.
  - intros Hcontract.
    destruct (getTablesAsRecord_returns _ root Hcontract Hroot)
      as (entries & result & _ & _ & Hresult).
    by exists result.
  - intros result k records Hresult Hk.
    unfold getTablesAsRecord in Hresult. fold options in Hresult.
    apply bind_Normal_inv in Hresult as (entries & Hentries & Hcollect).
    destruct (collect_origin _ _ _ _ _ _ _ Hcollect Hk)
      as [Hempty|(i' & table & Hentry & Hrecords)].
    { by rewrite lookup_empty in Hempty. }
    destruct (tableEntries_lookup_inv _ _ _ _ _ _ Hroot Hentries Hentry)
      as (container' & Hcontainer' & Hkey & Htable').
    exists i', container', table. split; [|done].
    intros ->. rewrite Hcontainer in Hcontainer'.
    injection Hcontainer' as <-. by rewrite Htable in Htable'.
Qed.

(** C10.  A scope container in which a table is found always gets an entry
    under its key.  Unless a later container with a table derives the same
    key, the entry holds the records of this container's table; when the
    table has no row with the header count of cells, these records are the
    empty array. *)
Theorem getTablesAsRecord_entry_for_every_table
    (getTableAsRecordOptions : GivenOptions.t) (root : Node)
    (i : nat) (container table : Node) (k : string) :
  let options := normalizeOptions getTableAsRecordOptions in
  honoursContract options →
  Options.root options = Some root →
  scopeContainers options root !! i = Some container →
  containerTable options container = Some table →
  containerKey options container i = Normal k →
  ∃ result,
    getTablesAsRecord getTableAsRecordOptions = Normal result
    ∧ is_Some (result !! k)
    ∧ ((∀ j container',
          i < j →
          scopeContainers options root !! j = Some container' →
          containerKey options container' j = Normal k →
          containerTable options container' = None) →
       ∃ records,
         convertTableToRecordArray table options = Normal records
         ∧ result !! k = Some records
         ∧ ∀ headers,
             tableHeaders table options = Normal headers →
             (∀ cells, cells ∈ tableRows table options →
                       length cells ≠ length headers) →
             result !! k = Some []).
Proof.
  intros options Hcontract Hroot Hcontainer Htable Hkey.
  destruct (getTablesAsRecord_returns _ root Hcontract Hroot)
    as (entries & result & Hentries & Hcollect & Hresult).
  fold options in Hentries, Hcollect.
  destruct (tableEntries_lookup _ _ _ Hroot Hentries) as [_ Hlookup].
  destruct (Hlookup i container Hcontainer) as (id & Hid & Hentry).
  rewrite Hkey in Hid. injection Hid as <-. rewrite Htable in Hentry.
  exists result. split; [done|]. split.
  - apply (collect_present _ _ _ _ _ _ Hcollect). right. exists table.
    by apply list_elem_of_lookup_2 in Hentry.
  - intros Hlast.
    destruct (collect_last _ _ _ _ _ _ _ _ Hcollect Hentry)
      as (records & Hrecords & Hk).
    { intros j table' Hj Hentry'.
      destruct (tableEntries_lookup_inv _ _ _ _ _ _ Hroot Hentries Hentry')
        as (container' & Hcontainer' & Hkey' & Htable').
      rewrite (Hlast j container' Hj Hcontainer' Hkey') in Htable'. done. }
    exists records. split; [done|]. split; [done|].
    intros headers Hheaders Hmismatch.
    destruct (convertTableToRecordArray_Normal_inv _ _ _ Hrecords)
      as (headers' & Hheaders' & Hforall).
    rewrite Hheaders in Hheaders'. injection Hheaders' as <-.
    rewrite filter_none in Hforall by done.
    apply Forall2_nil_inv_l in Hforall as ->. done.
Qed.

End ExtractorClaims.

(** ** The claims on the concrete DOM *)

Lemma fixture_honoursContract :
  honoursContract (normalizeOptions Fixture.given).
Proof. by apply normalizeOptions_honoursContract. Qed.

Lemma fixture_result :
  getTablesAsRecord Fixture.given
  = Normal (<["latestAgents" := [ {[ "name" := "Chrome" ]} ] ]>
              (<["table2" := [] ]> ∅)).
Proof. vm_compute. reflexivity. Qed.

(** Without a root and without an ambient document the extractor throws. *)
Lemma fixture_no_root :
  getTablesAsRecord (GivenOptions.empty (H := Fixture.dom)) = Throw TypeError.
Proof. reflexivity. Qed.

(** Surrounding white space, runs of white space and the case of the label
    do not show in the header key. *)
Lemma fixture_label :
  textContentToCamelCaseConverter
    (Some (Fixture.th (String "009" "  oS   +  BROWSER  "))) 0
  = Normal "osAndBrowser".
Proof. reflexivity. Qed.

Lemma fixture_entries :
  tableEntries (normalizeOptions Fixture.given)
  = Normal [ ("latestAgents", Some Fixture.oldTable);
             ("noTable", None);
             ("table2", Some Fixture.emptyTable);
             ("latestAgents", Some Fixture.agentsTable);
             ("latestAgents", None) ].
Proof. reflexivity. Qed.

Lemma keysAndElementsMapper_record_keys_witness :
  (∃ record,
     keysAndElementsMapper ["share"; "useragent"]
       [Fixture.td "12%"; Fixture.td "Mozilla"] textContentConverter
     = Normal record
     ∧ (is_Some (record !! "useragent") ↔
        ∃ i, i < 2 ∧ ["share"; "useragent"] !! i = Some "useragent"))
  ∧ (∃ record value,
       keysAndElementsMapper ["share"]
         [Fixture.td "12%"; Fixture.td "Mozilla"] textContentConverter
       = Normal record
       ∧ textContentConverter (Some (Fixture.td "Mozilla")) 1 = Normal value
       ∧ record !! "undefined" = Some value).
Proof.
  split.
  - destruct (@keysAndElementsMapper_record_keys Fixture.dom
                ["share"; "useragent"]
                [Fixture.td "12%"; Fixture.td "Mozilla"] textContentConverter
                textContentConverter_returns)
      as (record & Hrecord & _ & Hpaired & _).
    exists record. split; [exact Hrecord|].
    apply (Hpaired (le_n 2) "useragent").
  - destruct (@keysAndElementsMapper_record_keys Fixture.dom ["share"]
                [Fixture.td "12%"; Fixture.td "Mozilla"] textContentConverter
                textContentConverter_returns)
      as (record & Hrecord & _ & _ & Hlonger).
    destruct (Hlonger (le_n 2) (Fixture.td "Mozilla") eq_refl)
      as (value & Hvalue & Hundefined).
    exists record, value. split; [exact Hrecord|]. split; assumption.
Defined.

(** C1, as the specification words it, fails: with one key and two
    elements the mapper makes an entry for the out-of-range position, under
    the key ["undefined"]. *)
Lemma keysAndElementsMapper_entry_for_out_of_range_key :
  keysAndElementsMapper ["share"]
    [Fixture.td "12%"; Fixture.td "Mozilla"] textContentConverter
  = Normal (<["undefined" := "Mozilla"]> (<["share" := "12%"]> ∅))
  ∧ (<["undefined" := "Mozilla"]> (<["share" := "12%"]> ∅)
       : gmap string string) !! "undefined" = Some "Mozilla"
  ∧ ¬ ∃ i, i < length ["share"] ∧ ["share"] !! i = Some "undefined".
Proof.
  split; [reflexivity|]. split; [reflexivity|].
  intros (i & Hi & Hkey). destruct i as [|i]; [discriminate|simpl in Hi; lia].
Qed.

Lemma convertTableToRecordArray_one_record_per_matching_row_witness :
  (∃ records,
     convertTableToRecordArray Fixture.agentsTable
       (normalizeOptions Fixture.given) = Normal records
     ∧ length records = 1)
  ∧ (∃ records,
       convertTableToRecordArray Fixture.oldTable
         (normalizeOptions Fixture.given) = Normal records
       ∧ length records
         = length (querySelectorAll Fixture.oldTable "tr")).
Proof.
  split.
  - destruct (@convertTableToRecordArray_one_record_per_matching_row
                Fixture.dom Fixture.agentsTable (normalizeOptions Fixture.given)
                fixture_honoursContract)
      as (headers & records & Hheaders & _ & Hrecords & _ & Hlength & _).
    injection Hheaders as <-.
    exists records. split; [exact Hrecords|exact Hlength].
  - destruct (@convertTableToRecordArray_one_record_per_matching_row
                Fixture.dom Fixture.oldTable (normalizeOptions Fixture.given)
                fixture_honoursContract)
      as (headers & records & Hheaders & _ & Hrecords & _ & _ & Hall).
    injection Hheaders as <-.
    exists records. split; [exact Hrecords|]. apply Hall.
    intros cells Hcells. apply list_elem_of_singleton in Hcells as ->.
    reflexivity.
Defined.

Lemma keysAndElementsMapper_last_cell_wins_witness :
  (∃ record value,
     keysAndElementsMapper ["name"; "name"]
       [Fixture.td "Firefox"; Fixture.td " Chrome "] textContentConverter
     = Normal record
     ∧ textContentConverter (Some (Fixture.td " Chrome ")) 1 = Normal value
     ∧ record !! "name" = Some value)
  ∧ (∃ records record value,
       convertTableToRecordArray Fixture.agentsTable
         (normalizeOptions Fixture.given) = Normal records
       ∧ records = [record]
       ∧ textContentConverter (Some (Fixture.td " Chrome ")) 1 = Normal value
       ∧ record !! "name" = Some value).
Proof.
  split.
  - destruct (proj1 (@keysAndElementsMapper_last_cell_wins Fixture.dom)
                ["name"; "name"]
                [Fixture.td "Firefox"; Fixture.td " Chrome "]
                textContentConverter textContentConverter_returns (le_n 2))
      as (record & Hrecord & Hlast).
    destruct (Hlast 1 "name" (Fixture.td " Chrome ") eq_refl eq_refl)
      as (value & Hvalue & Hname).
    { intros j Hlt Hlen. simpl in Hlen. lia. }
    exists record, value. split; [exact Hrecord|]. split; assumption.
  - destruct (proj2 (@keysAndElementsMapper_last_cell_wins Fixture.dom)
                Fixture.agentsTable (normalizeOptions Fixture.given)
                fixture_honoursContract eq_refl)
      as (headers & records & Hheaders & Hrecords & Hforall).
    injection Hheaders as <-.
    change (Forall2
              (fun cells record =>
                 ∀ i k cell,
                   ["name"; "name"] !! i = Some k →
                   cells !! i = Some cell →
                   (∀ j, i < j → j < length cells →
                         ["name"; "name"] !! j ≠ Some k) →
                   ∃ value,
                     textContentConverter (Some cell) i = Normal value
                     ∧ record !! k = Some value)
              [[Fixture.td "Firefox"; Fixture.td " Chrome "]] records)
      in Hforall.
    apply Forall2_cons_inv_l in Hforall
      as (record & rest & Hrecord & Hrest & ->).
    apply Forall2_nil_inv_l in Hrest as ->.
    destruct (Hrecord 1 "name" (Fixture.td " Chrome ") eq_refl eq_refl)
      as (value & Hvalue & Hname).
    { intros j Hlt Hlen. simpl in Hlen. lia. }
    exists [record], record, value.
    split; [exact Hrecords|]. split; [reflexivity|]. split; assumption.
Defined.



Lemma getTablesAsRecord_skips_container_without_table_witness :
  getTablesAsRecord Fixture.given
  = collectTables (normalizeOptions Fixture.given)
      [ ("latestAgents", Some Fixture.oldTable);
        ("table2", Some Fixture.emptyTable);
        ("latestAgents", Some Fixture.agentsTable);
        ("latestAgents", None) ]
  ∧ (∃ result, getTablesAsRecord Fixture.given = Normal result)
  ∧ (∃ i' container' table,
       i' ≠ 1
       ∧ scopeContainers (normalizeOptions Fixture.given) Fixture.page !! i'
         = Some container'
       ∧ containerKey (normalizeOptions Fixture.given) container' i'
         = Normal "table2"
       ∧ containerTable (normalizeOptions Fixture.given) container'
         = Some table
       ∧ convertTableToRecordArray table (normalizeOptions Fixture.given)
         = Normal []).
Proof.
  pose proof (getTablesAsRecord_skips_container_without_table
                Fixture.given Fixture.page 1
                (Fixture.Element "section" None
                   [Fixture.Element "h2" (Some "no-table")
                      [Fixture.Text "Nothing here"]])
                eq_refl eq_refl eq_refl) as (Hskip & Hreturns & Horigin).
  split; [|split].
  - exact (Hskip _ fixture_entries).
  - exact (Hreturns fixture_honoursContract).
  - exact (Horigin _ "table2" [] fixture_result eq_refl).
Defined.

Lemma getTablesAsRecord_entry_for_every_table_witness :
  ∃ result,
    getTablesAsRecord Fixture.given = Normal result
    ∧ is_Some (result !! "table2")
    ∧ result !! "table2" = Some [].
Proof.
  destruct (getTablesAsRecord_entry_for_every_table
              Fixture.given Fixture.page 2
              (Fixture.Element "section" None [Fixture.emptyTable])
              Fixture.emptyTable "table2"
              fixture_honoursContract eq_refl eq_refl eq_refl eq_refl)
    as (result & Hresult & Hsome & Hlast).
  exists result. split; [exact Hresult|]. split; [exact Hsome|].
  destruct Hlast as (records & _ & _ & Hempty).
  - intros j container' Hlt Hcontainer Hkey.
    destruct j as [|[|[|[|[|j]]]]]; try lia.
    + injection Hcontainer as <-. discriminate Hkey.
    + injection Hcontainer as <-. reflexivity.
    + discriminate Hcontainer.
  - apply (Hempty ["osAndBrowser"] eq_refl).
    intros cells Hcells.
    apply elem_of_cons in Hcells as [->|Hcells].
    + simpl. lia.
    + apply list_elem_of_singleton in Hcells as ->. simpl. lia.
Defined.

(** * Further properties of the extraction core *)

Section CoreExtras.
Context `{Dom}.

Lemma Array_from_at_throws {A B} (mapFn : A → nat → Completion B)
    (items : list A) (index i : nat) (item : A) (exception : Exception) :
  items !! i = Some item →
  mapFn item (index + i) = Throw exception →
  (∀ j item', j < i → items !! j = Some item' →
     ∃ value, mapFn item' (index + j) = Normal value) →
  Array_from_at mapFn items index = Throw exception.
Proof.
  revert index i.
  induction items as [|first items IH]; intros index i; [done|].
  destruct i as [|i]; simpl.
  - intros [= ->] Hthrow _. rewrite Nat.add_0_r in Hthrow.
    by rewrite Hthrow.
  - intros Hitem Hthrow Hbefore.
    destruct (Hbefore 0 first) as [value Hvalue]; [lia|done|].
    rewrite Nat.add_0_r in Hvalue. rewrite Hvalue. simpl.
    rewrite (IH (S index) i); [done|done| |].
    + by rewrite Nat.add_succ_comm.
    + intros j item' Hj Hitem'. rewrite Nat.add_succ_comm.
      apply Hbefore; [lia|done].
Qed.

Lemma Array_reduce_at_returns_lookup {A B}
    (callback : B → A → nat → Completion B)
    (items : list A) (index : nat) (acc : B) :
  (∀ acc j item, items !! j = Some item →
     ∃ acc', callback acc item (index + j) = Normal acc') →
  ∃ result, Array_reduce_at callback items index acc = Normal result.
Proof.
  revert index acc. induction items as [|item items IH]; intros index acc Hcb.
  - by exists acc.
  - simpl. destruct (Hcb acc 0 item eq_refl) as [acc' Hacc'].
    rewrite Nat.add_0_r in Hacc'. rewrite Hacc'. simpl.
    apply IH. intros acc'' j item' Hj. rewrite Nat.add_succ_comm.
    by apply Hcb.
Qed.

(** X1.  Called with no option but [root], or with none at all, the
    extractor returns, for every DOM, exactly when the root it ends up
    with is a node: a node given as [root], or the ambient document when
    no [root] property is given.  It throws a TypeError when [root] is
    given as undefined or null, even where an ambient document exists, and
    when no [root] is given and there is no ambient document. *)
Theorem getTablesAsRecord_default_converters_outcome
    (root : option (option Node)) :
  match root with
  | Some (Some _) => ∃ result, getTablesAsRecord (justRoot root) = Normal result
  | Some None => getTablesAsRecord (justRoot root) = Throw TypeError
  | None =>
      match document with
      | Some _ => ∃ result, getTablesAsRecord (justRoot root) = Normal result
      | None => getTablesAsRecord (justRoot root) = Throw TypeError
      end
  end.
Proof.
  assert (∀ node,
            Options.root (normalizeOptions (justRoot root)) = Some node →
            ∃ result, getTablesAsRecord (justRoot root) = Normal result)
    as Hreturns.
  { intros node Hroot.
    destruct (getTablesAsRecord_returns (justRoot root) node)
      as (entries & result & _ & _ & Hresult); [|done|by exists result].
    by apply normalizeOptions_honoursContract. }
  destruct root as [[node|]|].
  - by apply (Hreturns node).
  - done.
  - destruct document as [ambient|] eqn:Hambient.
    + apply (Hreturns ambient). simpl. by rewrite Hambient.
    + unfold getTablesAsRecord, tableEntries. simpl. by rewrite Hambient.
Qed.

Lemma tableEntries_throws (options : Options.t) (root : Node)
    (i : nat) (container : Node) (exception : Exception) :
  Options.root options = Some root →
  scopeContainers options root !! i = Some container →
  containerKey options container i = Throw exception →
  (∀ j earlier, j < i →
     scopeContainers options root !! j = Some earlier →
     ∃ id, containerKey options earlier j = Normal id) →
  tableEntries options = Throw exception.
Proof.
  intros Hroot Hcontainer Hthrow Hbefore.
  unfold tableEntries. rewrite Hroot.
  apply (Array_from_at_throws _ _ 0 i container); [done| |].
  - cbv beta. rewrite Nat.add_0_l, Hthrow. done.
  - intros j earlier Hj Hearlier. cbv beta. rewrite Nat.add_0_l.
    destruct (Hbefore j earlier Hj Hearlier) as [id ->]. by eexists.
Qed.

(** X2.  The table keys of all containers are computed before any table is
    looked at: when the key converter throws for a container, the
    extractor throws that exception, whether or not the container holds a
    table. *)
Theorem getTablesAsRecord_key_converter_throws
    (getTableAsRecordOptions : GivenOptions.t) (root : Node)
    (i : nat) (container : Node) (exception : Exception) :
  let options := normalizeOptions getTableAsRecordOptions in
  Options.root options = Some root →
  scopeContainers options root !! i = Some container →
  containerKey options container i = Throw exception →
  (∀ j earlier, j < i →
     scopeContainers options root !! j = Some earlier →
     ∃ id, containerKey options earlier j = Normal id) →
  getTablesAsRecord getTableAsRecordOptions = Throw exception.
Proof.
  intros options Hroot Hcontainer Hthrow Hbefore.
  unfold getTablesAsRecord. fold options.
  by rewrite (tableEntries_throws options root i container exception).
Qed.

Lemma keysAndElementsMapper_returns_on
    (keys : list string) (elements : list Node)
    (valueConverter : ElementToStringConverter) :
  (∀ i element, elements !! i = Some element →
     ∃ value, valueConverter (Some element) i = Normal value) →
  ∃ record, keysAndElementsMapper keys elements valueConverter = Normal record.
Proof.
  intros Hconv. apply Array_reduce_at_returns_lookup.
  intros acc j element Hj. simpl.
  destruct (Hconv j element Hj) as [value ->]. by eexists.
Qed.

(** X3.  The cells of a row that is dropped are never converted: with the
    default mapper the table converter returns as soon as the header
    converter returns and the cell converter returns on the cells of the
    rows that have the header count of cells. *)
Theorem convertTableToRecordArray_converts_kept_rows_only
    (table : Node) (options : Options.t) :
  Options.keysAndElementsMapper options = keysAndElementsMapper →
  alwaysReturns (Options.headerKeyConverter options) →
  (∀ headers cells i cell,
     tableHeaders table options = Normal headers →
     cells ∈ tableRows table options →
     length cells = length headers →
     cells !! i = Some cell →
     ∃ value, Options.cellValueConverter options (Some cell) i = Normal value) →
  ∃ records, convertTableToRecordArray table options = Normal records.
Proof.
  intros Hmapper Hheader Hcells.
  destruct (tableHeaders_returns table options Hheader) as [headers Hheaders].
  unfold convertTableToRecordArray. rewrite Hheaders. simpl.
  apply Array_reduce_at_returns. intros acc cells _ Hin.
  case_decide as Hlength; [|by eexists].
  rewrite Hmapper.
  destruct (keysAndElementsMapper_returns_on headers cells
              (Options.cellValueConverter options)) as [record ->].
  { intros i cell Hcell. by apply (Hcells headers cells). }
  by eexists.
Qed.

End CoreExtras.

(** ** Shape of the keys and values *)

Local Abbreviation notWhiteSpace := (fun c => negb (JsChar.isWhiteSpace c)).
Local Abbreviation notHyphen := (fun c => negb (Ascii.eqb c "-")).
Local Abbreviation keyCharacter :=
  (fun c => negb (JsChar.isWhiteSpace c) && negb (Ascii.eqb c "+")).

Lemma keyCharacter_toLowerCase c :
  keyCharacter c = true → keyCharacter (JsChar.toLowerCase c) = true.
Proof. ascii_cases c; vm_compute; congruence. Qed.

Lemma keyCharacter_toUpperCase c :
  JsChar.isLowerAZ c = true → keyCharacter (JsChar.toUpperCase c) = true.
Proof. ascii_cases c; vm_compute; congruence. Qed.

Lemma notHyphen_toUpperCase c :
  JsChar.isLowerAZ c = true → notHyphen (JsChar.toUpperCase c) = true.
Proof. ascii_cases c; vm_compute; congruence. Qed.

Lemma replaceWhiteSpaceRuns_from_no_whiteSpace inRun s :
  JsString.forallb notWhiteSpace
    (JsString.replaceWhiteSpaceRuns_from inRun "-" s) = true.
Proof.
  revert inRun. induction s as [|c s IH]; intros inRun; [done|]. simpl.
  destruct (JsChar.isWhiteSpace c) eqn:Hc.
  - destruct inRun; [apply IH|].
    rewrite append_cons, append_nil_l. simpl. apply IH.
  - simpl. by rewrite Hc, IH.
Qed.

Lemma replacePlus_keyCharacters s :
  JsString.forallb notWhiteSpace s = true →
  JsString.forallb keyCharacter (JsString.replacePlus "and" s) = true.
Proof.
  induction s as [|c s IH]; [done|]. simpl. intros [Hc Hs]%andb_prop.
  destruct (Ascii.eqb c "+") eqn:Hplus.
  - rewrite !append_cons, append_nil_l. simpl. by apply IH.
  - simpl. by rewrite Hc, Hplus, IH.
Qed.

Lemma trim_no_whiteSpace s :
  JsString.forallb notWhiteSpace s = true → JsString.trim s = s.
Proof.
  intros Hs. unfold JsString.trim.
  assert (JsString.trimStart s = s) as ->.
  { destruct s as [|c s]; [done|]. simpl in *.
    apply andb_prop in Hs as [Hc _]. apply negb_true_iff in Hc.
    by rewrite Hc. }
  induction s as [|c s IH]; [done|]. simpl in *.
  apply andb_prop in Hs as [Hc Hs]. apply negb_true_iff in Hc.
  rewrite (IH Hs). destruct s; [by rewrite Hc|done].
Qed.

Lemma toLowerCase_keyCharacters s :
  JsString.forallb keyCharacter s = true →
  JsString.forallb keyCharacter (JsString.toLowerCase s) = true.
Proof.
  induction s as [|c s IH]; [done|]. intros [Hc Hs]%andb_prop.
  change (JsString.toLowerCase (String c s))
    with (String (JsChar.toLowerCase c) (JsString.toLowerCase s)).
  change (keyCharacter (JsChar.toLowerCase c)
          && JsString.forallb keyCharacter (JsString.toLowerCase s) = true).
  apply andb_true_intro. split; [by apply keyCharacter_toLowerCase|].
  by apply IH.
Qed.

Lemma replaceHyphenLetter_forallb (p : ascii → bool) s :
  (∀ c, JsChar.isLowerAZ c = true → p (JsChar.toUpperCase c) = true) →
  JsString.forallb p s = true →
  JsString.forallb p (JsString.replaceHyphenLetter s) = true.
Proof.
  intros Hupper.
  assert (∀ s,
    (JsString.forallb p s = true →
     JsString.forallb p (JsString.replaceHyphenLetter s) = true) ∧
    (∀ c, JsString.forallb p (String c s) = true →
     JsString.forallb p (JsString.replaceHyphenLetter (String c s)) = true))
    as Hboth.
  { clear s. induction s as [|d s [IH1 IH2]].
    - split; [done|]. intros c. simpl. by destruct (Ascii.eqb c "-").
    - split; [apply IH2|]. intros c Hall.
      pose proof Hall as Hcopy.
      change (p c && JsString.forallb p (String d s) = true) in Hcopy.
      apply andb_prop in Hcopy as [Hc Hrest].
      destruct (Ascii.eqb c "-") eqn:Hhyphen.
      + apply Ascii.eqb_eq in Hhyphen as ->.
        destruct (JsChar.isLowerAZ d) eqn:Hd.
        * rewrite replaceHyphenLetter_match by done.
          change (p d && JsString.forallb p s = true) in Hrest.
          apply andb_prop in Hrest as [_ Hs].
          change (p (JsChar.toUpperCase d)
                  && JsString.forallb p (JsString.replaceHyphenLetter s)
                  = true).
          apply andb_true_intro. split; [by apply Hupper|by apply IH1].
        * rewrite replaceHyphenLetter_no_match by done.
          change (p "-"%char
                  && JsString.forallb p
                       (JsString.replaceHyphenLetter (String d s)) = true).
          apply andb_true_intro. split; [done|by apply IH2].
      + rewrite replaceHyphenLetter_other by done.
        change (p c
                && JsString.forallb p
                     (JsString.replaceHyphenLetter (String d s)) = true).
        apply andb_true_intro. split; [done|by apply IH2]. }
  apply Hboth.
Qed.

Section ShapeExtras.
Context `{Dom}.

(** X4.  A header key made by the default label converter contains no
    white space and no plus sign, whatever the header cell contains. *)
Theorem textContentToCamelCaseConverter_key_characters
    (element : option Node) (index : nat) :
  ∃ key,
    textContentToCamelCaseConverter element index = Normal key
    ∧ JsString.forallb keyCharacter key = true.
Proof.
  destruct (textContentConverter_returns element index) as [text Htext].
  exists (kebabCaseToCamelCase
            (JsString.replacePlus "and"
               (JsString.replaceWhiteSpaceRuns "-" text))).
  split.
  { unfold textContentToCamelCaseConverter. by rewrite Htext. }
  pose proof (replacePlus_keyCharacters _
                (replaceWhiteSpaceRuns_from_no_whiteSpace false text))
    as Hkey.
  fold (JsString.replaceWhiteSpaceRuns "-" text) in Hkey.
  unfold kebabCaseToCamelCase.
  rewrite trim_no_whiteSpace.
  - apply replaceHyphenLetter_forallb.
    + apply keyCharacter_toUpperCase.
    + by apply toLowerCase_keyCharacters.
  - eapply forallb_impl; [|exact Hkey].
    intros c Hc. by apply andb_prop in Hc as [-> _].
Qed.

Lemma trimStart_not_startsWithWhiteSpace s :
  JsString.startsWithWhiteSpace (JsString.trimStart s) = false.
Proof.
  induction s as [|c s IH]; [done|]. simpl.
  destruct (JsChar.isWhiteSpace c) eqn:Hc; [done|]. simpl. done.
Qed.

Lemma trimEnd_not_endsWithWhiteSpace s :
  JsText.endsWithWhiteSpace (JsString.trimEnd s) = false.
Proof.
  induction s as [|c s IH]; [done|]. simpl.
  destruct (JsString.trimEnd s) as [|d r] eqn:Hr.
  - destruct (JsChar.isWhiteSpace c) eqn:Hc; [done|]. simpl. done.
  - done.
Qed.

Lemma trimEnd_startsWithWhiteSpace s :
  JsString.startsWithWhiteSpace s = false →
  JsString.startsWithWhiteSpace (JsString.trimEnd s) = false.
Proof.
  destruct s as [|c s]; [done|]. simpl. intros Hc.
  destruct (JsString.trimEnd s); [by rewrite Hc|done].
Qed.

(** X5.  A cell value made by the default text content converter neither
    starts nor ends with white space. *)
Theorem textContentConverter_trimmed (element : option Node) (index : nat) :
  ∃ value,
    textContentConverter element index = Normal value
    ∧ JsString.startsWithWhiteSpace value = false
    ∧ JsText.endsWithWhiteSpace value = false.
Proof.
  destruct element as [element|].
  - exists (JsString.trim (textContent element)). split; [done|].
    unfold JsString.trim. split.
    + apply trimEnd_startsWithWhiteSpace,
        trimStart_not_startsWithWhiteSpace.
    + apply trimEnd_not_endsWithWhiteSpace.
  - by exists "".
Qed.

End ShapeExtras.

(** X6.  The key that [kebabCaseToCamelCase] returns is free of hyphens
    exactly when every hyphen of the trimmed, lower-cased input is
    immediately followed by a letter of a-z. *)
Theorem kebabCaseToCamelCase_hyphen_free (str : string) :
  JsString.forallb notHyphen (kebabCaseToCamelCase str)
  = Spec.hyphensPrecedeLetters (JsString.toLowerCase (JsString.trim str)).
Proof.
  unfold kebabCaseToCamelCase.
  generalize (JsString.toLowerCase (JsString.trim str)). clear str.
  assert (∀ s,
    JsString.forallb notHyphen (JsString.replaceHyphenLetter s)
    = Spec.hyphensPrecedeLetters s
    ∧ ∀ c, JsString.forallb notHyphen
             (JsString.replaceHyphenLetter (String c s))
           = Spec.hyphensPrecedeLetters (String c s)) as Hboth.
  { induction s as [|d s [IH1 IH2]].
    - split; [done|]. intros c.
      destruct (Ascii.eqb c "-") eqn:Hc; simpl; rewrite Hc; simpl;
        by rewrite ?Hc.
    - split; [apply IH2|]. intros c.
      destruct (Ascii.eqb c "-") eqn:Hc.
      + apply Ascii.eqb_eq in Hc as ->.
        change (Spec.hyphensPrecedeLetters (String "-" (String d s)))
          with (JsChar.isLowerAZ d && Spec.hyphensPrecedeLetters s).
        destruct (JsChar.isLowerAZ d) eqn:Hd.
        * rewrite replaceHyphenLetter_match by done.
          change (notHyphen (JsChar.toUpperCase d)
                  && JsString.forallb notHyphen
                       (JsString.replaceHyphenLetter s)
                  = true && Spec.hyphensPrecedeLetters s).
          rewrite IH1. f_equal. by apply notHyphen_toUpperCase.
        * by rewrite replaceHyphenLetter_no_match.
      + rewrite replaceHyphenLetter_other by done.
        change (Spec.hyphensPrecedeLetters (String c (String d s)))
          with (if Ascii.eqb c "-"
                then JsChar.isLowerAZ d && Spec.hyphensPrecedeLetters s
                else Spec.hyphensPrecedeLetters (String d s)).
        change (notHyphen c
                && JsString.forallb notHyphen
                     (JsString.replaceHyphenLetter (String d s))
                = (if Ascii.eqb c "-"
                   then JsChar.isLowerAZ d && Spec.hyphensPrecedeLetters s
                   else Spec.hyphensPrecedeLetters (String d s))).
        rewrite IH2. cbv beta. by rewrite Hc. }
  intros s. apply Hboth.
Qed.

Section RecordExtras.
Context `{Dom}.

Lemma keysAndElementsMapper_dom
    (keys : list string) (elements : list Node)
    (valueConverter : ElementToStringConverter) (record : gmap string string) :
  keysAndElementsMapper keys elements valueConverter = Normal record →
  length elements = length keys →
  dom record = (list_to_set keys : gset string).
Proof.
  intros Hrecord Hlength. apply set_eq. intros k.
  rewrite elem_of_dom, elem_of_list_to_set. split.
  - intros Hk.
    destruct (assign_origin _ _ _ _ _ _ _ Hrecord Hk)
      as [Hempty|(j & Hj & Hkey)].
    { rewrite lookup_empty in Hempty. by destruct Hempty. }
    simpl in Hkey.
    destruct (lookup_lt_is_Some_2 keys j) as [key Hlookup]; [lia|].
    rewrite Hlookup in Hkey. simpl in Hkey. subst key.
    by apply list_elem_of_lookup_2 in Hlookup.
  - intros (j & Hj)%list_elem_of_lookup_1.
    apply (assign_present _ _ _ _ _ _ _ Hrecord). right. exists j.
    split.
    + rewrite Hlength. by apply lookup_lt_Some in Hj.
    + simpl. by rewrite Hj.
Qed.

(** X7.  With the default mapper every record of a table has exactly the
    header keys as its keys: no header is missing from a record and no
    record has a key that is not a header. *)
Theorem convertTableToRecordArray_record_keys
    (table : Node) (options : Options.t) :
  honoursContract options →
  Options.keysAndElementsMapper options = keysAndElementsMapper →
  ∃ headers records,
    tableHeaders table options = Normal headers
    ∧ convertTableToRecordArray table options = Normal records
    ∧ Forall (fun record : gmap string string =>
                dom record = (list_to_set headers : gset string))
        records.
Proof.
  intros Hcontract Hmapper.
  destruct (convertTableToRecordArray_returns table options Hcontract)
    as [records Hrecords].
  destruct (convertTableToRecordArray_Normal_inv _ _ _ Hrecords)
    as (headers & Hheaders & Hforall).
  exists headers, records. split; [done|]. split; [done|].
  apply Forall_forall. intros record (n & Hn)%list_elem_of_lookup_1.
  destruct (Forall2_lookup_r _ _ _ _ _ Hforall Hn)
    as (cells & Hcells & Hmapped).
  rewrite Hmapper in Hmapped.
  apply list_elem_of_lookup_2, list_elem_of_filter in Hcells as [Hlength _].
  by apply (keysAndElementsMapper_dom headers cells
              (Options.cellValueConverter options) record).
Qed.

Lemma collect_size options (entries : list (string * option Node))
    index (acc result : gmap string (list (gmap string string))) :
  Array_reduce_at (addTable options) entries index acc = Normal result →
  size result
  ≤ size acc + length (filter (fun entry => is_Some entry.2) entries).
Proof.
  revert index acc.
  induction entries as [|[id table] entries IH]; intros index acc.
  - simpl. intros [= <-]. lia.
  - simpl. intros (acc' & Hstep & Hrest)%bind_Normal_inv.
    apply IH in Hrest. rewrite filter_cons.
    destruct table as [table|]; unfold addTable in Hstep; simpl in Hstep.
    + apply bind_Normal_inv in Hstep as (records & _ & [= <-]).
      rewrite decide_True by (by eexists). simpl.
      rewrite map_size_insert in Hrest.
      destruct (acc !! id); simpl in Hrest; lia.
    + injection Hstep as <-.
      rewrite decide_False; [done|]. simpl. by intros [? ?].
Qed.

Lemma tableEntries_tables options root
    (entries : list (string * option Node)) :
  Options.root options = Some root →
  tableEntries options = Normal entries →
  length (filter (fun entry => is_Some entry.2) entries)
  = length (filter (fun container =>
                      is_Some (containerTable options container))
              (scopeContainers options root)).
Proof.
  intros Hroot Hentries.
  destruct (tableEntries_lookup _ _ _ Hroot Hentries) as [Hlength Hlookup].
  assert (Forall2 (fun container entry =>
                     entry.2 = containerTable options container)
            (scopeContainers options root) entries) as Hforall.
  { apply Forall2_same_length_lookup. split; [done|].
    intros i container entry Hcontainer Hentry.
    destruct (Hlookup i container Hcontainer) as (id & _ & Hentry').
    rewrite Hentry in Hentry'. by injection Hentry' as ->. }
  clear Hlength Hlookup Hentries.
  induction Hforall as [|container entry containers entries' Heq _ IH];
    [done|].
  rewrite !filter_cons, Heq.
  destruct (decide (is_Some (containerTable options container)));
    simpl; by rewrite IH.
Qed.

(** X8.  The result has at most one entry per scope container that holds
    a table; a document without scope containers gives the empty
    object. *)
Theorem getTablesAsRecord_size
    (getTableAsRecordOptions : GivenOptions.t) (root : Node) :
  let options := normalizeOptions getTableAsRecordOptions in
  honoursContract options →
  Options.root options = Some root →
  ∃ result,
    getTablesAsRecord getTableAsRecordOptions = Normal result
    ∧ size result
      ≤ length (filter (fun container =>
                          is_Some (containerTable options container))
                  (scopeContainers options root))
    ∧ (scopeContainers options root = [] → result = ∅).
Proof.
  intros options Hcontract Hroot.
  destruct (getTablesAsRecord_returns _ root Hcontract Hroot)
    as (entries & result & Hentries & Hcollect & Hresult).
  fold options in Hentries, Hcollect.
  exists result. split; [done|].
  pose proof (collect_size _ _ _ _ _ Hcollect) as Hsize.
  rewrite map_size_empty in Hsize. simpl in Hsize.
  rewrite (tableEntries_tables _ _ _ Hroot Hentries) in Hsize.
  split; [done|].
  intros Hnone. rewrite Hnone in Hsize. simpl in Hsize.
  apply map_size_empty_inv. lia.
Qed.

(** X9.  The fallback keys of two positions differ: containers without an
    id element never overwrite each other. *)
Theorem idToCamelCaseConverter_fallback_injective (i j : nat) :
  i ≠ j → idToCamelCaseConverter None i ≠ idToCamelCaseConverter None j.
Proof.
  intros Hne Heq. apply Hne. revert Heq.
  rewrite !idToCamelCaseConverter_null. intros [= Hdigits].
  apply DecimalNat.Unsigned.to_uint_inj.
  assert (Some (Nat.to_uint i) = Some (Nat.to_uint j)) as [= ->]; [|done].
  change (NilEmpty.string_of_uint (Nat.to_uint i)
          = NilEmpty.string_of_uint (Nat.to_uint j)) in Hdigits.
  rewrite <- !NilEmpty.usu. by rewrite Hdigits.
Qed.

End RecordExtras.

(** * The command line *)

Lemma split_forallb (p : ascii → bool) separator s :
  JsString.forallb p s = true →
  Forall (fun piece => JsString.forallb p piece = true)
    (JsText.split separator s).
Proof.
  induction s as [|c s IH]; intros Hs.
  - by repeat constructor.
  - simpl in Hs. apply andb_prop in Hs as [Hc Hs]. specialize (IH Hs).
    simpl. destruct (Ascii.eqb c separator).
    + by constructor.
    + destruct (JsText.split separator s) as [|piece pieces].
      * repeat constructor. simpl. by rewrite Hc.
      * inversion IH as [|? ? Hpiece Hpieces]; subst.
        constructor; [|done]. simpl. by rewrite Hc, Hpiece.
Qed.

Lemma includes_without_hyphen argv0 flag :
  JsString.forallb (fun c => negb (Ascii.eqb c "-")) argv0 = true →
  JsString.forallb (fun c => negb (Ascii.eqb c "-")) flag = false →
  Cli.includes (Cli.ARGS argv0) flag = false.
Proof.
  intros Hargv0 Hflag. unfold Cli.includes. apply bool_decide_eq_false.
  intros Hin.
  pose proof (split_forallb _ "2" argv0 Hargv0) as Hpieces.
  rewrite Forall_forall in Hpieces. specialize (Hpieces flag Hin).
  congruence.
Qed.

(** X10.  The flags are looked up in the pieces of the executable name
    [process.argv0] cut at the character 2, not in the arguments.  When
    that name contains no hyphen neither the help flag nor the pretty flag
    is ever found: no usage text is requested and the indent is 4 exactly
    when the environment sets [PRETTIFY_JSON] to the string ["true"].  A
    set [PRETTIFY_JSON] decides the indent for every executable name. *)
Theorem Cli_flags_without_hyphen (argv0 : string) (env : gmap string string) :
  (JsString.forallb (fun c => negb (Ascii.eqb c "-")) argv0 = true →
   Cli.helpRequested argv0 = false
   ∧ Cli.jsonIndent (Cli.settings argv0 env)
     = if decide (env !! "PRETTIFY_JSON" = Some "true") then 4 else 0)
  ∧ (∀ value,
       env !! "PRETTIFY_JSON" = Some value →
       Cli.jsonIndent (Cli.settings argv0 env)
       = if decide (value = "true") then 4 else 0).
Proof.
  split.
  - intros Hargv0. split.
    + unfold Cli.helpRequested.
      by rewrite !includes_without_hyphen.
    + unfold Cli.jsonIndent, Cli.settings. simpl.
      destruct (env !! "PRETTIFY_JSON") as [value|] eqn:Henv.
      * destruct (decide (value = "true")) as [->|Hne].
        -- by rewrite bool_decide_eq_true_2, decide_True.
        -- rewrite bool_decide_eq_false_2 by done.
           rewrite decide_False; [done|]. by intros [= ->].
      * by rewrite !includes_without_hyphen.
  - intros value Henv. unfold Cli.jsonIndent, Cli.settings. simpl.
    rewrite Henv. destruct (decide (value = "true")) as [->|Hne].
    + by rewrite bool_decide_eq_true_2.
    + by rewrite bool_decide_eq_false_2.
Qed.

Lemma Cli_flags_without_hyphen_witness :
  (Cli.helpRequested "node" = false
   ∧ Cli.jsonIndent (Cli.settings "node" {[ "OUTPUT_FILE" := "out.json" ]})
     = 0)
  ∧ Cli.jsonIndent (Cli.settings "-p" {[ "PRETTIFY_JSON" := "1" ]}) = 0.
Proof.
  split.
  - exact (proj1 (Cli_flags_without_hyphen "node"
                    {[ "OUTPUT_FILE" := "out.json" ]}) eq_refl).
  - exact (proj2 (Cli_flags_without_hyphen "-p"
                    {[ "PRETTIFY_JSON" := "1" ]}) "1" eq_refl).
Defined.

(** * [explainErrorCode] *)

Lemma objectLiteral_snoc definitions definition :
  objectLiteral (definitions ++ [definition])
  = <[propertyKey definition.1 := definition.2]> (objectLiteral definitions).
Proof. unfold objectLiteral. by rewrite foldl_app. Qed.

Lemma objectLiteral_lookup_None definitions key :
  (∀ constant text, (constant, text) ∈ definitions →
                    propertyKey constant ≠ key) →
  objectLiteral definitions !! key = None.
Proof.
  induction definitions as [|[constant text] definitions IH] using rev_ind;
    intros Hother; [done|].
  rewrite objectLiteral_snoc. simpl. rewrite lookup_insert_ne.
  - apply IH. intros c t Hin. apply (Hother c t), elem_of_app. by left.
  - apply (Hother constant text), elem_of_app. right.
    by apply list_elem_of_singleton.
Qed.

Lemma objectLiteral_lookup_last definitions i constant text key :
  definitions !! i = Some (constant, text) →
  propertyKey constant = key →
  (∀ j later text', i < j → definitions !! j = Some (later, text') →
                    propertyKey later ≠ key) →
  objectLiteral definitions !! key = Some text.
Proof.
  revert i.
  induction definitions as [|[last text''] definitions IH] using rev_ind;
    intros i Hi Hkey Hlater; [done|].
  rewrite objectLiteral_snoc. simpl.
  destruct (decide (i = length definitions)) as [->|Hne].
  - rewrite lookup_app_r, Nat.sub_diag in Hi by lia. injection Hi as -> ->.
    rewrite Hkey. apply lookup_insert_eq.
  - assert (i < length definitions) as Hlt.
    { apply lookup_lt_Some in Hi. rewrite length_app in Hi. simpl in Hi.
      lia. }
    rewrite lookup_app_l in Hi by done.
    rewrite lookup_insert_ne.
    + apply (IH i Hi Hkey). intros j later text' Hj Hlookup.
      apply (Hlater j later text' Hj).
      rewrite lookup_app_l; [done|]. by apply lookup_lt_Some in Hlookup.
    + apply (Hlater (length definitions) last text''); [done|].
      by rewrite lookup_app_r, Nat.sub_diag by lia.
Qed.

(** X11.  [explainErrorCode] returns the message of the last listed
    constant whose property name is that of the error's code: when two
    constants share a name (as when several are undefined) the later
    message replaces the earlier one. *)
Theorem explainErrorCode_last_definition_wins
    (inherits : string → bool)
    (constants : ErrnoConstants) (error : NodeError)
    (i : nat) (constant : JsValue) (text : string) :
  errnoMessages constants !! i = Some (constant, text) →
  propertyKey constant = propertyKey (code error) →
  (∀ j later text',
     i < j → errnoMessages constants !! j = Some (later, text') →
     propertyKey later ≠ propertyKey (code error)) →
  explainErrorCode inherits constants error = Message text.
Proof.
  intros Hi Hkey Hlater. unfold explainErrorCode.
  rewrite (objectLiteral_lookup_last _ i constant text) by done.
  destruct i as [|[|[|[|[|[|[|i]]]]]]]; simpl in Hi;
    try discriminate; by injection Hi as <- <-.
Qed.

(** X12.  An error whose code has the property name of none of the seven
    constants gets the generic message, unless that name is a property
    inherited from [Object.prototype]: then the inherited value is
    returned, not a message. *)
Theorem explainErrorCode_unknown_code
    (inherits : string → bool)
    (constants : ErrnoConstants) (error : NodeError) :
  (∀ constant text,
     (constant, text) ∈ errnoMessages constants →
     propertyKey constant ≠ propertyKey (code error)) →
  explainErrorCode inherits constants error
  = if inherits (propertyKey (code error))
    then Inherited (propertyKey (code error))
    else Message "Error accessing file or directory".
Proof.
  intros Hother. unfold explainErrorCode.
  by rewrite objectLiteral_lookup_None.
Qed.

(** * The file-system helpers *)

Section FsProperties.
Context `{FileSystem}.

Ltac fs_unfold :=
  unfold gracefullyOpenFile, directoryAccessResult, directoryFailure,
    gracefullyAccessDirectory, await, catchAsValue, access, mkdir, open,
    resolve.

Ltac fs_step :=
  match goal with
  | |- context [fs_access ?p ?m ?w] =>
      destruct (fs_access p m w) as [[[]|?] ?] eqn:?
  | |- context [fs_mkdir ?p ?r ?w] =>
      destruct (fs_mkdir p r w) as [[[?|]|?] ?] eqn:?
  | |- context [fs_open ?p ?f ?w] =>
      destruct (fs_open p f w) as [[?|?] ?] eqn:?
  end.

Ltac fs_cases options :=
  fs_unfold;
  destruct options as [recursive [[|]|] [[|]|] [[|]|]];
  repeat (simpl; fs_step); simpl.

(** X13.  The promise of [gracefullyOpenFile] is never rejected: whatever
    the file system answers, it is fulfilled, with a file handle or with an
    error object. *)
Theorem gracefullyOpenFile_never_rejects
    (filePath : string) (options : GracefulOptions) (world : World) :
  ∃ result,
    (gracefullyOpenFile filePath options world).1.1 = Fulfilled result.
Proof. fs_cases options; by eexists. Qed.

(** X14.  The promise of [gracefullyAccessDirectory] is rejected in one
    case only: the directory is not accessible, creating it is not switched
    off, and [fs.mkdir] rejects; the reason is the one of [fs.mkdir]. *)
Theorem gracefullyAccessDirectory_rejects_iff
    (directory : string) (options : GracefulOptions) (world : World)
    (reason : NodeError) :
  (gracefullyAccessDirectory directory options world).1.1 = Rejected reason
  ↔ createDirectory options ≠ Some false
    ∧ ∃ accessError world',
        fs_access directory F_OK world = (Rejected accessError, world')
        ∧ (fs_mkdir directory (default true (recursive options)) world').1
          = Rejected reason.
Proof.
  fs_unfold. destruct options as [recursive create createFile skip]. simpl.
  destruct (fs_access directory F_OK world) as [[[]|accessError] world1];
    simpl.
  { split; [done|]. by intros [_ (? & ? & [=] & _)]. }
  assert (∀ P : Prop,
            (P ↔ (fs_mkdir directory (default true recursive) world1).1
                 = Rejected reason) →
            create ≠ Some false →
            P ↔ create ≠ Some false
                ∧ ∃ accessError' world',
                    (@Rejected unit accessError, world1)
                    = (Rejected accessError', world')
                    ∧ (fs_mkdir directory (default true recursive) world').1
                      = Rejected reason) as Hiff.
  { intros P HP Hcreate. rewrite HP. split.
    - intros Hmkdir. split; [done|]. by exists accessError, world1.
    - by intros [_ (? & ? & [= <- <-] & Hmkdir)]. }
  destruct create as [[|]|]; simpl.
  - apply Hiff; [|done].
    destruct (fs_mkdir directory (default true recursive) world1)
      as [[[first|]|mkdirError] world2]; simpl; split; congruence.
  - split; [done|]. by intros [Hcreate _].
  - apply Hiff; [|done].
    destruct (fs_mkdir directory (default true recursive) world1)
      as [[[first|]|mkdirError] world2]; simpl; split; congruence.
Qed.

Ltac events_solve :=
  repeat match goal with
         | Hin : _ ∈ [] |- _ => by apply elem_of_nil in Hin
         | Hin : _ ∈ _ :: _ |- _ => apply elem_of_cons in Hin as [Hin|Hin]
         | Hex : ∃ _, _ |- _ => destruct Hex as [? Hex]
         | Hor : _ ∨ _ |- _ => destruct Hor as [Hor|Hor]
         end;
  simplify_eq/=.

(** X15.  [gracefullyOpenFile] fulfils with a file handle exactly when it
    called [fs.open] and that call was fulfilled with this handle; it never
    opens another path than the given one, and always with the flags
    ["w+"]. *)
Theorem gracefullyOpenFile_handle_iff_opened
    (filePath : string) (options : GracefulOptions) (world : World) :
  (∀ handle,
     (gracefullyOpenFile filePath options world).1.1
     = Fulfilled (OpenedFile handle)
     ↔ Opened filePath "w+" (Fulfilled handle)
       ∈ (gracefullyOpenFile filePath options world).2)
  ∧ (∀ path flags outcome,
       Opened path flags outcome
       ∈ (gracefullyOpenFile filePath options world).2 →
       path = filePath ∧ flags = "w+").
Proof.
  fs_cases options; (split; [intros handle; split|]);
    try (intros Hevent; events_solve; done);
    try (intros [= <-]; repeat (try (by left); right));
    try (intros ? ? ? Hevent; events_solve; done).
Qed.

(** X16.  When the directory of the file is not accessible and is not
    created, because creating is switched off or [fs.mkdir] rejects, the
    helper fulfils with an error object and neither checks nor opens the
    file. *)
Theorem gracefullyOpenFile_directory_failure
    (filePath : string) (options : GracefulOptions) (world : World) :
  (∃ error,
     Accessed (path_dirname filePath) F_OK (Rejected error)
     ∈ (gracefullyOpenFile filePath options world).2) →
  (createDirectory options = Some false
   ∨ ∃ recursive error,
       MadeDirectory (path_dirname filePath) recursive (Rejected error)
       ∈ (gracefullyOpenFile filePath options world).2) →
  (∃ error,
     (gracefullyOpenFile filePath options world).1.1
     = Fulfilled (OpenError error))
  ∧ (∀ path flags outcome,
       Opened path flags outcome
       ∉ (gracefullyOpenFile filePath options world).2)
  ∧ (∀ path outcome,
       Accessed path W_OK outcome
       ∉ (gracefullyOpenFile filePath options world).2).
Proof.
  fs_cases options; intros Haccess Hcause; events_solve;
    (split; [by eexists|]); split; intros; intros Hevent; events_solve.
Qed.

(** X17.  With [createFile] switched off, a file that fails the
    write-access check is not opened (so neither created nor truncated):
    the helper fulfils with the error of the check. *)
Theorem gracefullyOpenFile_createFile_false
    (filePath : string) (options : GracefulOptions) (world : World)
    (error : NodeError) :
  createFile options = Some false →
  Accessed filePath W_OK (Rejected error)
  ∈ (gracefullyOpenFile filePath options world).2 →
  (gracefullyOpenFile filePath options world).1.1
  = Fulfilled (OpenError error)
  ∧ ∀ path flags outcome,
      Opened path flags outcome
      ∉ (gracefullyOpenFile filePath options world).2.
Proof.
  fs_cases options; intros Hcreate Haccess; events_solve;
    (split; [done|]); intros; intros Hevent; events_solve.
Qed.

(** X18.  With [skipDirectoryCheck] switched on the helper touches the file
    only: every call is the write-access check of the file or its
    opening. *)
Theorem gracefullyOpenFile_skipDirectoryCheck
    (filePath : string) (options : GracefulOptions) (world : World)
    (event : FsEvent) :
  skipDirectoryCheck options = Some true →
  event ∈ (gracefullyOpenFile filePath options world).2 →
  (∃ outcome, event = Accessed filePath W_OK outcome)
  ∨ (∃ outcome, event = Opened filePath "w+" outcome).
Proof.
  fs_cases options; intros Hskip Hevent; events_solve;
    try (by left; eexists); by right; eexists.
Qed.

(** X19.  A directory is made only for the directory of the file, only
    after its access check failed, and only when neither creating is
    switched off nor the directory check is skipped; [recursive] is passed
    on, true unless given. *)
Theorem gracefullyOpenFile_mkdir_only_when_missing
    (filePath : string) (options : GracefulOptions) (world : World)
    (path : string) (flag : bool) (outcome : Settled (option string)) :
  MadeDirectory path flag outcome
  ∈ (gracefullyOpenFile filePath options world).2 →
  path = path_dirname filePath
  ∧ flag = default true (recursive options)
  ∧ createDirectory options ≠ Some false
  ∧ skipDirectoryCheck options ≠ Some true
  ∧ ∃ error,
      Accessed path F_OK (Rejected error)
      ∈ (gracefullyOpenFile filePath options world).2.
Proof.
  fs_cases options; intros Hevent; events_solve;
    repeat (split; [done|]); eexists; by left.
Qed.

End FsProperties.

(** * [getUserAgentsJson] *)

Section UserAgentsProperties.
Context `{Dom} {Response : Type}.

(** X20.  [getUserAgentsJson] is rejected exactly when the [JSDOM]
    constructor throws.  A failed fetch does not reject it: the error
    object is handed to the constructor in place of the page text, and once
    a document is built the extraction with the default options
    returns. *)
Theorem getUserAgentsJson_rejects_iff
    (fetch : string → Settled Response)
    (responseText : Response → Settled string)
    (JSDOM : HtmlInput → Completion Node) (url : string) :
  (∀ reason document,
     fetch url = Rejected reason →
     JSDOM (HtmlError reason) = Normal document →
     ∃ result,
       getUserAgentsJson fetch responseText JSDOM url = Normal result
       ∧ getTablesAsRecord (rootOnly document) = Normal result)
  ∧ (∀ exception,
       getUserAgentsJson fetch responseText JSDOM url = Throw exception
       ↔ JSDOM match fetchHtml fetch responseText url with
               | Fulfilled text => HtmlText text
               | Rejected error => HtmlError error
               end = Throw exception).
Proof.
  assert (∀ document,
            ∃ result, getTablesAsRecord (rootOnly document) = Normal result)
    as Hreturns.
  { intros document.
    destruct (getTablesAsRecord_returns (rootOnly document) document)
      as (_ & result & _ & _ & Hresult); [|done|by exists result].
    by apply normalizeOptions_honoursContract. }
  split.
  - intros reason document Hfetch Hdom.
    destruct (Hreturns document) as [result Hresult].
    exists result. split; [|done].
    unfold getUserAgentsJson, fetchHtml. rewrite Hfetch, Hdom. done.
  - intros exception. unfold getUserAgentsJson.
    destruct (JSDOM _) as [document|exception']; simpl.
    + destruct (Hreturns document) as [result ->]. by split.
    + split; by intros [= ->].
Qed.

End UserAgentsProperties.

(** * The further properties on the concrete inputs *)

Lemma getTablesAsRecord_default_converters_outcome_witness :
  (∃ result,
     getTablesAsRecord (justRoot (Some (Some Fixture.page))) = Normal result)
  ∧ getTablesAsRecord (justRoot (H := Fixture.dom) (Some None))
    = Throw TypeError
  ∧ getTablesAsRecord (justRoot (H := Fixture.dom) None) = Throw TypeError.
Proof.
  split; [|split].
  - exact (getTablesAsRecord_default_converters_outcome
             (Some (Some Fixture.page))).
  - exact (@getTablesAsRecord_default_converters_outcome Fixture.dom
             (Some None)).
  - exact (@getTablesAsRecord_default_converters_outcome Fixture.dom None).
Defined.

Lemma getTablesAsRecord_key_converter_throws_witness :
  getTablesAsRecord (Sample.given (Some Sample.strictKeyConverter) None)
  = Throw (Thrown "no heading").
Proof.
  apply (getTablesAsRecord_key_converter_throws
           (Sample.given (Some Sample.strictKeyConverter) None)
           Sample.page 2
           (Fixture.Element "section" None [Fixture.Text "soon"])
           (Thrown "no heading")).
  - reflexivity.
  - reflexivity.
  - reflexivity.
  - intros j earlier Hj Hearlier.
    destruct j as [|[|j]]; [| |lia]; injection Hearlier as <-;
      eexists; reflexivity.
Defined.

Lemma convertTableToRecordArray_converts_kept_rows_only_witness :
  ∃ records,
    convertTableToRecordArray Sample.raggedTable
      (normalizeOptions (Sample.given None (Some Sample.firstCellConverter)))
    = Normal records.
Proof.
  apply convertTableToRecordArray_converts_kept_rows_only.
  - reflexivity.
  - apply textContentToCamelCaseConverter_returns.
  - intros headers cells i cell Hheaders Hcells Hlength Hcell.
    injection Hheaders as <-.
    apply elem_of_cons in Hcells as [->|Hcells].
    + destruct i as [|i]; [|discriminate Hcell].
      eexists. reflexivity.
    + apply list_elem_of_singleton in Hcells as ->. discriminate Hlength.
Defined.

Lemma convertTableToRecordArray_record_keys_witness :
  ∃ headers records,
    tableHeaders Fixture.agentsTable (normalizeOptions Fixture.given)
    = Normal headers
    ∧ convertTableToRecordArray Fixture.agentsTable
        (normalizeOptions Fixture.given) = Normal records
    ∧ Forall (fun record : gmap string string =>
                dom record = (list_to_set headers : gset string))
        records.
Proof.
  exact (convertTableToRecordArray_record_keys Fixture.agentsTable
           (normalizeOptions Fixture.given) fixture_honoursContract eq_refl).
Defined.

Lemma getTablesAsRecord_size_witness :
  ∃ result,
    getTablesAsRecord Fixture.given = Normal result ∧ size result ≤ 3.
Proof.
  destruct (getTablesAsRecord_size Fixture.given Fixture.page
              fixture_honoursContract eq_refl)
    as (result & Hresult & Hsize & _).
  exists result. split; [exact Hresult|exact Hsize].
Defined.

Lemma idToCamelCaseConverter_fallback_injective_witness :
  idToCamelCaseConverter (H := Fixture.dom) None 2
  ≠ idToCamelCaseConverter None 12.
Proof.
  apply idToCamelCaseConverter_fallback_injective. discriminate.
Defined.

Lemma explainErrorCode_last_definition_wins_witness :
  explainErrorCode inheritsFromObjectPrototype
    {| EACCES := Undefined; ENOENT := Undefined; EAGAIN := Undefined;
       EBUSY := Undefined; EEXIST := Undefined; EINVAL := Undefined;
       EIO := Undefined |}
    {| code := Undefined; message := "failed" |}
  = Message "I/O error"
  ∧ explainErrorCode inheritsFromObjectPrototype
      {| EACCES := Number 13; ENOENT := Number 2; EAGAIN := Number 11;
         EBUSY := Number 16; EEXIST := Number 17; EINVAL := Number 22;
         EIO := Number 5 |}
      {| code := Number 13; message := "failed" |}
    = Message "Permission denied".
Proof.
  split.
  - apply (explainErrorCode_last_definition_wins _ _ _ 6 Undefined).
    + reflexivity.
    + reflexivity.
    + intros j later text' Hj Hlater.
      destruct j as [|[|[|[|[|[|[|j]]]]]]]; try lia; discriminate Hlater.
  - apply (explainErrorCode_last_definition_wins _ _ _ 1 (Number 13)).
    + reflexivity.
    + reflexivity.
    + intros j later text' Hj Hlater.
      destruct j as [|[|[|[|[|[|[|j]]]]]]]; try lia;
        try discriminate Hlater; injection Hlater as <- <-; discriminate.
Defined.

Lemma explainErrorCode_unknown_code_witness :
  explainErrorCode inheritsFromObjectPrototype
    {| EACCES := Number 13; ENOENT := Number 2; EAGAIN := Number 11;
       EBUSY := Number 16; EEXIST := Number 17; EINVAL := Number 22;
       EIO := Number 5 |}
    {| code := Text "ENOENT"; message := "no such file" |}
  = Message "Error accessing file or directory"
  ∧ explainErrorCode inheritsFromObjectPrototype
      {| EACCES := Number 13; ENOENT := Number 2; EAGAIN := Number 11;
         EBUSY := Number 16; EEXIST := Number 17; EINVAL := Number 22;
         EIO := Number 5 |}
      {| code := Text "toString"; message := "odd" |}
    = Inherited "toString".
Proof.
  split.
  - apply (explainErrorCode_unknown_code inheritsFromObjectPrototype).
    intros constant text Hin.
    repeat (apply elem_of_cons in Hin as [[= -> ->]|Hin]; [discriminate|]).
    by apply elem_of_nil in Hin.
  - apply (explainErrorCode_unknown_code inheritsFromObjectPrototype).
    intros constant text Hin.
    repeat (apply elem_of_cons in Hin as [[= -> ->]|Hin]; [discriminate|]).
    by apply elem_of_nil in Hin.
Defined.

(** * The file-system helpers on the concrete disk *)

Lemma gracefullyAccessDirectory_rejects_iff_witness :
  (@gracefullyAccessDirectory Disk.fileSystem "/srv/out"
     {| recursive := Some false; createDirectory := None;
        createFile := None; skipDirectoryCheck := None |} Disk.home).1.1
  = Rejected Disk.ENOENT_error.
Proof.
  apply (@gracefullyAccessDirectory_rejects_iff Disk.fileSystem).
  split; [discriminate|].
  exists Disk.ENOENT_error, Disk.home. split; reflexivity.
Defined.

Lemma gracefullyOpenFile_handle_iff_opened_witness :
  Opened "/home/agents.json" "w+" (Fulfilled "/home/agents.json")
  ∈ (@gracefullyOpenFile Disk.fileSystem "/home/agents.json"
       {| recursive := None; createDirectory := None;
          createFile := None; skipDirectoryCheck := None |} Disk.home).2.
Proof.
  apply (@gracefullyOpenFile_handle_iff_opened Disk.fileSystem).
  reflexivity.
Defined.

Lemma gracefullyOpenFile_directory_failure_witness :
  ∃ error,
    (@gracefullyOpenFile Disk.fileSystem "/srv/out/agents.json"
       {| recursive := None; createDirectory := Some false;
          createFile := None; skipDirectoryCheck := None |} Disk.home).1.1
    = Fulfilled (OpenError error).
Proof.
  apply (@gracefullyOpenFile_directory_failure Disk.fileSystem).
  - exists Disk.ENOENT_error. apply list_elem_of_here.
  - left. reflexivity.
Defined.

Lemma gracefullyOpenFile_createFile_false_witness :
  (@gracefullyOpenFile Disk.fileSystem "/home/agents.json"
     {| recursive := None; createDirectory := None;
        createFile := Some false; skipDirectoryCheck := None |} Disk.home).1.1
  = Fulfilled (OpenError Disk.ENOENT_error).
Proof.
  apply (@gracefullyOpenFile_createFile_false Disk.fileSystem).
  - reflexivity.
  - apply list_elem_of_further, list_elem_of_here.
Defined.

Lemma gracefullyOpenFile_skipDirectoryCheck_witness :
  (∃ outcome,
     Opened "/srv/out/agents.json" "w+" (Rejected Disk.ENOENT_error)
     = Accessed "/srv/out/agents.json" W_OK outcome)
  ∨ (∃ outcome,
       Opened "/srv/out/agents.json" "w+" (Rejected Disk.ENOENT_error)
       = Opened "/srv/out/agents.json" "w+" outcome).
Proof.
  apply (@gracefullyOpenFile_skipDirectoryCheck Disk.fileSystem
           "/srv/out/agents.json"
           {| recursive := None; createDirectory := None;
              createFile := None; skipDirectoryCheck := Some true |}
           Disk.home).
  - reflexivity.
  - apply list_elem_of_further, list_elem_of_here.
Defined.

Lemma gracefullyOpenFile_mkdir_only_when_missing_witness :
  "/home/out" = Disk.parent "/home/out/agents.json"
  ∧ true = default true None
  ∧ None ≠ Some false
  ∧ None ≠ Some true
  ∧ ∃ error,
      Accessed "/home/out" F_OK (Rejected error)
      ∈ (@gracefullyOpenFile Disk.fileSystem "/home/out/agents.json"
           {| recursive := None; createDirectory := None;
              createFile := None; skipDirectoryCheck := None |}
           Disk.home).2.
Proof.
  apply (@gracefullyOpenFile_mkdir_only_when_missing Disk.fileSystem
           "/home/out/agents.json"
           {| recursive := None; createDirectory := None;
              createFile := None; skipDirectoryCheck := None |}
           Disk.home "/home/out" true (Fulfilled (Some "/home/out"))).
  apply list_elem_of_further, list_elem_of_here.
Defined.

Lemma getUserAgentsJson_rejects_iff_witness :
  ∃ result,
    getUserAgentsJson (H := Fixture.dom) (Response := string)
      (fun _ => Rejected Disk.ENOENT_error) (fun text => Fulfilled text)
      (fun _ => Normal Fixture.page) "https://www.useragents.me/"
    = Normal result
    ∧ getTablesAsRecord (rootOnly Fixture.page) = Normal result.
Proof.
  apply (proj1 (@getUserAgentsJson_rejects_iff Fixture.dom string
                  (fun _ => Rejected Disk.ENOENT_error)
                  (fun text => Fulfilled text)
                  (fun _ => Normal Fixture.page)
                  "https://www.useragents.me/") Disk.ENOENT_error);
    reflexivity.
Defined.
